(** * mmspd-explorer-uploader: the publish cycle, the upload pipeline and
      the scratch-workspace deleter

    A shallow embedding of [openrank/mmspd/exploreruploader/cmd/run.py] and of
    [cmd/__init__.py], followed by its properties.

    The embedding:
    - [Py]        the Python built-ins the code relies on: [int] and [str] on
                  integers, and the split of a file name by [pathlib];
    - [Uploader]  [parse_timestamp], the body of the [for] loop of [run], one
                  iteration of its [while True] loop, [run] over a finite
                  number of iterations, and [main]; what an iteration does is
                  kept as a list of events, in program order;
    - [Pipeline]  the bounded [asyncio.Queue] shared by [run] and the
                  [upload_to_s3] workers, as a transition system whose steps
                  are what happens between two suspension points;
    - [Fs]        a file system with symbolic links, and [rm_rf] over it;
    - [Examples]  concrete directories, schedules and disks.

    The properties: [PyFacts], [UploaderFacts], [PipelineFacts], [FsFacts],
    and [Scenarios] for the statements on concrete inputs. *)

From Stdlib Require Import ZArith Ascii String.
From stdpp Require Import gmap strings list fin_maps sorting pretty.

Set Warnings "-clear-no-such-hyp".

(** ** Python built-ins *)

Module Py.

(** Characters that [int()] skips around a literal in a string of ASCII
    characters: TAB, LF, VT, FF, CR and SPACE.  (The separators FS, GS, RS
    and US, which [str.isspace] accepts, are not skipped:
    [int("\x1c12")] raises [ValueError].) *)
Definition is_space (c : ascii) : bool :=
  let n := nat_of_ascii c in
  ((9 <=? n) && (n <=? 13)) || (n =? 32).

(** [s.isascii()], for a string given by its bytes in UTF-8. *)
Definition isascii (s : string) : bool :=
  forallb (fun c => nat_of_ascii c <? 128) (list_ascii_of_string s).

(** Beyond ASCII, [int()] also reads the decimal digits of other scripts and
    skips other blanks, and from version 3.11 on Python refuses a literal of
    more than 4300 digits.  What [int()] gives for a string with a character
    outside ASCII, or with more than 4300 characters, is taken from the
    platform; [None] is [ValueError]. *)
Class IntBeyond := {
  int_beyond : string -> option Z;
}.

Fixpoint lstrip (l : list ascii) : list ascii :=
  match l with
  | c :: l' => if is_space c then lstrip l' else l
  | [] => []
  end.

Definition strip (l : list ascii) : list ascii :=
  rev (lstrip (rev (lstrip l))).

Definition digit_val (c : ascii) : option Z :=
  let n := nat_of_ascii c in
  if (48 <=? n) && (n <=? 57) then Some (Z.of_nat (n - 48)) else None.

(** Decimal digits, with single underscores allowed between two digits.
    [after_digit] tells whether the previous character was a digit. *)
Fixpoint digits (l : list ascii) (acc : Z) (after_digit : bool) : option Z :=
  match l with
  | [] => if after_digit then Some acc else None
  | c :: l' =>
      match digit_val c with
      | Some d => digits l' (10 * acc + d)%Z true
      | None =>
          if Ascii.eqb c "_" && after_digit then digits l' acc false else None
      end
  end.

(** [int(s)]; [None] is [ValueError].  A string of at most 4300 ASCII
    characters is read here: blanks around, a sign, decimal digits. *)
Definition int `{IntBeyond} (s : string) : option Z :=
  if isascii s && (String.length s <=? 4300) then
    match strip (list_ascii_of_string s) with
    | "+"%char :: r => digits r 0 false
    | "-"%char :: r => Z.opp <$> digits r 0 false
    | l => digits l 0 false
    end
  else int_beyond s.

(** [str(n)] for an integer. *)
Definition str (n : Z) : string := pretty n.

(** Index of the last occurrence of [c], as [str.rfind]. *)
Fixpoint rfind_from (c : ascii) (l : list ascii) (i : nat) (found : option nat)
  : option nat :=
  match l with
  | [] => found
  | x :: l' => rfind_from c l' (S i) (if Ascii.eqb x c then Some i else found)
  end.

Definition rfind (c : ascii) (l : list ascii) : option nat :=
  rfind_from c l 0 None.

(** [pathlib]'s split of a file name at its last dot ([PurePath.suffix] and
    [PurePath.stem]): the dot counts only when it is neither the first nor
    the last character of the name. *)
Definition split_name (name : string) : string * string :=
  let l := list_ascii_of_string name in
  match rfind "." l with
  | Some i =>
      if (0 <? i) && (i <? List.length l - 1)
      then (string_of_list_ascii (take i l), string_of_list_ascii (drop i l))
      else (name, EmptyString)
  | None => (name, EmptyString)
  end.

Definition stem (name : string) : string := fst (split_name name).
Definition suffix (name : string) : string := snd (split_name name).

(** [path.with_suffix(s)], on the file name. *)
Definition with_suffix (name s : string) : string := stem name +:+ s.

(** [a / b] on the string forms of two paths, [b] relative. *)
Definition joinpath (a b : string) : string := a +:+ "/" +:+ b.

End Py.

(** ** The publish cycle ([run]) *)

Module Uploader.

(** An aware [datetime] is identified with its instant, in microseconds since
    the Unix epoch: that is how Python compares and hashes two of them. *)
Abbreviation datetime := Z (only parsing).

(** What the code takes from the platform: [datetime.strptime] ([None] is its
    [ValueError]), the floating-point computation
    [round(d.timestamp() * 1000)], and [int()] on the file names that
    [Py.int] does not read itself. *)
Class Platform := {
  strptime : string -> string -> option datetime;
  timestamp_ms : datetime -> Z;
  platform_int :: Py.IntBeyond;
}.

(** The value of [json.load]: only an object can be indexed by a key, and only
    a string can be handed to [strptime]. *)
Inductive json_value :=
  | JString (s : string)
  | JNotString.

Inductive json_doc :=
  | JObject (members : gmap string json_value)
  | JNotObject.

Inductive exn :=
  | KeyError
  | ValueError
  | TypeError
  | AssertionError
  | UnicodeDecodeError
  | ArchiveError.

(** The outcome of [path.open()] followed by [json.load]: [LoadFailed] stands
    for [OSError] and [json.JSONDecodeError], which the loop catches;
    [LoadRaised] for an exception it does not catch. *)
Inductive load_result :=
  | Loaded (doc : json_doc)
  | LoadFailed
  | LoadRaised (e : exn).

(** The tree that [extractall] leaves under the extraction directory. *)
#[warnings="-register-all"] Inductive xnode :=
  | XFile (name : string)
  | XDir (name : string) (children : list xnode).

Definition xname (c : xnode) : string :=
  match c with
  | XFile name => name
  | XDir name _ => name
  end.

(** One listing of the scanned directory, which is taken to exist: the names
    in the order [iterdir] yields them, and what reading a file of a given
    name gives.
    [extract_zip] is [None] when anything in the [with zipfile.ZipFile(...)]
    block raises before the first job is enqueued: a missing or corrupt
    archive, an I/O error, or an archive with no members (the extraction
    directory is then never created and [iterdir] fails on it). *)
Record directory := {
  iterdir : list string;
  load_json : string -> load_result;
  extract_zip : string -> option (list xnode);
}.

Record arguments := {
  s3_uploaders : Z;
  indexer_cache : string;
}.

(** [manifest_by_ts] and [timestamps_by_epoch]. *)
Record store := {
  manifest_by_ts : gmap Z json_doc;
  timestamps_by_epoch : gmap Z (gset Z);
}.

Definition empty_store : store :=
  {| manifest_by_ts := ∅; timestamps_by_epoch := ∅ |}.

(** An upload job: local path and remote key. *)
Abbreviation job := (string * string)%type (only parsing).

Inductive level := Info | Error | Critical.

(** What one iteration does, in program order.  [EvPut None] is the shutdown
    sentinel; [EvRegister] marks the two assignments that record a manifest. *)
Inductive event :=
  | EvLog (l : level) (msg : string)
  | EvQueue (maxsize : Z)
  | EvSpawn (workers : nat)
  | EvMkdtemp (tmpdir : string)
  | EvPut (item : option job)
  | EvRegister (ts0 : Z) (epoch : Z)
  | EvWrite (path : string) (content : list string)
  | EvGather
  | EvRmRf (path : string)
  | EvSleep (seconds : Z).

Section WithPlatform.
Context `{Platform}.

Definition parse_timestamp (s : string) : option datetime :=
  match strptime s "%Y-%m-%dT%H:%M:%S.%f%z" with
  | Some d => Some d
  | None => strptime s "%Y-%m-%dT%H:%M:%S%z"
  end.

(** [parse_timestamp(manifest[key])]. *)
Definition manifest_date (manifest : json_doc) (key : string) : exn + datetime :=
  match manifest with
  | JNotObject => inl TypeError
  | JObject members =>
      match members !! key with
      | None => inl KeyError
      | Some JNotString => inl TypeError
      | Some (JString s) =>
          match parse_timestamp s with
          | None => inl ValueError
          | Some d => inr d
          end
      end
  end.

(** The three assignments of the second [try] block, in order. *)
Definition manifest_dates (manifest : json_doc)
  : exn + (datetime * datetime * datetime) :=
  match manifest_date manifest "epoch" with
  | inl e => inl e
  | inr epoch =>
      match manifest_date manifest "issuanceDate" with
      | inl e => inl e
      | inr ts =>
          match manifest_date manifest "effectiveDate" with
          | inl e => inl e
          | inr ets => inr (epoch, ts, ets)
          end
      end
  end.

(** The job of one child of the extraction directory [tmpdir / stem]:
    [(f'{path2}', f'files/{ts0}/{path2.relative_to(tmpdir)}')] when
    [path2.is_file()]. *)
Definition child_job (tmpdir stem : string) (ts0 : Z) (c : xnode) : option job :=
  match c with
  | XFile name =>
      let rel := Py.joinpath stem name in
      Some (Py.joinpath tmpdir rel, "files/" +:+ Py.str ts0 +:+ "/" +:+ rel)
  | XDir _ _ => None
  end.

Definition upload_jobs (tmpdir stem : string) (ts0 : Z) (children : list xnode)
  : list job :=
  omap (child_job tmpdir stem ts0) children.

(** [manifest_by_ts[ts0] = manifest] and
    [timestamps_by_epoch.setdefault(epoch, set()).add(ts0)]. *)
Definition register (ts0 : Z) (manifest : json_doc) (epoch : Z) (st : store)
  : store :=
  {| manifest_by_ts := <[ts0 := manifest]> (manifest_by_ts st);
     timestamps_by_epoch :=
       <[epoch := {[ts0]} ∪ default ∅ (timestamps_by_epoch st !! epoch)]>
         (timestamps_by_epoch st) |}.

(** The result of a stretch of the loop: the store, the events, and the
    exception that left it, if any. *)
Abbreviation result := (store * list event * option exn)%type (only parsing).

(** The body of [for path in directory.iterdir()], for the entry [name]. *)
Definition scan_entry (d : directory) (tmpdir name : string) (st : store)
  : result :=
  if String.eqb (Py.suffix name) ".json" then
    match Py.int (Py.stem name) with
    | None => (st, [], None)
    | Some ts0 =>
        if decide (ts0 ∈ dom (manifest_by_ts st)) then (st, [], None)
        else
          match load_json d name with
          | LoadFailed => (st, [EvLog Error "cannot load manifest"], None)
          | LoadRaised e => (st, [], Some e)
          | Loaded manifest =>
              match manifest_dates manifest with
              | inl KeyError => (st, [EvLog Error "invalid manifest"], None)
              | inl ValueError =>
                  (st, [EvLog Error "invalid epoch/issuance/effective date"],
                   None)
              | inl e => (st, [], Some e)
              | inr (epoch, ts, ets) =>
                  if Z.eqb (timestamp_ms ts) ts0 then
                    match extract_zip d (Py.with_suffix name ".zip") with
                    | None => (st, [], Some ArchiveError)
                    | Some children =>
                        (register ts0 manifest epoch st,
                         map (fun j => EvPut (Some j))
                             (upload_jobs tmpdir (Py.stem name) ts0 children)
                         ++ [EvRegister ts0 epoch],
                         None)
                    end
                  else (st, [], Some AssertionError)
              end
          end
    end
  else (st, [], None).

(** The [for] loop: an exception leaves it at once. *)
Fixpoint scan (d : directory) (tmpdir : string) (names : list string)
  (st : store) : result :=
  match names with
  | [] => (st, [], None)
  | name :: rest =>
      match scan_entry d tmpdir name st with
      | (st1, tr1, Some e) => (st1, tr1, Some e)
      | (st1, tr1, None) =>
          match scan d tmpdir rest st1 with
          | (st2, tr2, r) => (st2, tr1 ++ tr2, r)
          end
      end
  end.

(** [max(timestamps_by_epoch.keys())]; [None] is the [ValueError] of [max]
    on an empty sequence. *)
Definition max_epoch (m : gmap Z (gset Z)) : option Z :=
  match elements (dom m) with
  | [] => None
  | k :: ks => Some (foldr Z.max k ks)
  end.

(** [[str(ts) for ts in sorted(timestamps)]]. *)
Definition index_list (timestamps : gset Z) : list string :=
  map Py.str (merge_sort Z.le (elements timestamps)).

(** How one iteration of [while True] ends: it falls through to the sleep,
    it leaves through [continue], or an exception escapes. *)
Inductive control :=
  | Completed
  | Continued
  | Raised (e : exn).

(** What [finally] does. *)
Definition finally (tmpdir : string) : list event :=
  [EvPut None; EvGather; EvLog Info "all uploads finished"; EvRmRf tmpdir].

(** What an iteration does before the scan. *)
Definition prologue (args : arguments) (tmpdir : string) : list event :=
  [EvLog Info "starting a run";
   EvQueue (s3_uploaders args * 4);
   EvSpawn (Z.to_nat (s3_uploaders args));
   EvMkdtemp tmpdir].

(** From [list_ = ...] to the second [put]. *)
Definition publish (args : arguments) (tmpdir : string) (timestamps : gset Z)
  : list event :=
  let list_ := index_list timestamps in
  let list_json := Py.joinpath tmpdir "list.json" in
  [EvWrite list_json list_;
   EvPut (Some (list_json, "api/scores/list.json"));
   EvPut (Some (indexer_cache args, "api/scores/indexer-scores"));
   EvLog Info "finished a run"].

(** One iteration of [while True].  Creating the workspace and writing the
    index file are taken to succeed.  The [continue] of the handler of
    [ValueError] is inside the outer [try]: [finally] runs, and the loop
    starts over without reaching the sleep that follows the [try]. *)
Definition cycle (args : arguments) (d : directory) (tmpdir : string)
  (st : store) : store * list event * control :=
  match scan d tmpdir (iterdir d) st with
  | (st1, tr, Some e) =>
      (st1, prologue args tmpdir ++ tr ++ finally tmpdir, Raised e)
  | (st1, tr, None) =>
      match max_epoch (timestamps_by_epoch st1) with
      | None => (st1, prologue args tmpdir ++ tr ++ finally tmpdir, Continued)
      | Some max_epoch =>
          let timestamps :=
            default ∅ (timestamps_by_epoch st1 !! max_epoch) in
          (st1,
           prologue args tmpdir ++ tr
           ++ publish args tmpdir timestamps
           ++ finally tmpdir
           ++ [EvSleep 10],
           Completed)
      end
  end.

(** [run], for as many iterations as there are listings: iteration [i] sees
    the directory as [fst (env !! i)] and gets [snd (env !! i)] from
    [mkdtemp].  [run] itself never returns; [None] says that it is still
    looping when the listings are used up. *)
Fixpoint run (args : arguments) (env : list (directory * string)) (st : store)
  : result :=
  match env with
  | [] => (st, [], None)
  | (d, tmpdir) :: rest =>
      match cycle args d tmpdir st with
      | (st1, tr, Raised e) => (st1, tr, Some e)
      | (st1, tr, _) =>
          match run args rest st1 with
          | (st2, tr2, r) => (st2, tr ++ tr2, r)
          end
      end
  end.

(** [main]: the exit status is [Some 1] when an exception escapes [run]. *)
Definition main (args : arguments) (env : list (directory * string))
  : store * list event * option Z :=
  match run args env empty_store with
  | (st, tr, Some _) =>
      (st,
       tr ++ [EvLog Critical "mmspd-explorer-uploader finished abnormally"],
       Some 1%Z)
  | (st, tr, None) => (st, tr, None)
  end.

End WithPlatform.

(** The registrations of a trace, in order: timestamp and epoch. *)
Definition registrations (tr : list event) : list (Z * Z) :=
  omap (fun e => match e with EvRegister ts0 ep => Some (ts0, ep) | _ => None end)
       tr.

Definition registered (tr : list event) : list Z := (registrations tr).*1.

Definition is_log (e : event) : Prop :=
  match e with EvLog _ _ => True | _ => False end.

(** The published index [content], written after the events [before], lists
    the timestamps registered so far under the greatest epoch registered so
    far: as strings, in strictly ascending numeric order. *)
Definition index_of (before : list event) (content : list string) : Prop :=
  exists (e : Z) (l : list Z),
    (exists t, (t, e) ∈ registrations before)
    /\ (forall t e', (t, e') ∈ registrations before -> (e' <= e)%Z)
    /\ content = map Py.str l
    /\ StronglySorted Z.lt l
    /\ (forall t, t ∈ l <-> (t, e) ∈ registrations before)
    /\ NoDup content.

(** Every index written in [tr], itself coming after [before], is the index
    of what precedes it. *)
Definition indexes_ok (before tr : list event) : Prop :=
  forall tr1 path content tr2,
    tr = tr1 ++ EvWrite path content :: tr2 ->
    index_of (before ++ tr1) content.

Definition is_write (e : event) : Prop :=
  match e with EvWrite _ _ => True | _ => False end.

(** The store holds what the trace registered, and nothing twice. *)
Definition agrees (st : store) (tr : list event) : Prop :=
  (forall t e,
      t ∈ default ∅ (timestamps_by_epoch st !! e)
      <-> (t, e) ∈ registrations tr)
  /\ (forall e, e ∈ dom (timestamps_by_epoch st) ->
                exists t, (t, e) ∈ registrations tr)
  /\ (forall t, t ∈ dom (manifest_by_ts st) <-> t ∈ registered tr)
  /\ NoDup (registered tr).

Section Outcomes.
Context `{Platform}.

(** The three ways the body of the [for] loop ends. *)
Inductive entry_outcome (d : directory) (tmpdir name : string) (st : store)
  : store -> list event -> option exn -> Prop :=
  | entry_skipped tr :
      Forall is_log tr ->
      entry_outcome d tmpdir name st st tr None
  | entry_raised e :
      entry_outcome d tmpdir name st st [] (Some e)
  | entry_registered ts0 manifest epoch ts ets children :
      Py.suffix name = ".json" ->
      Py.int (Py.stem name) = Some ts0 ->
      ts0 ∉ dom (manifest_by_ts st) ->
      load_json d name = Loaded manifest ->
      manifest_dates manifest = inr (epoch, ts, ets) ->
      timestamp_ms ts = ts0 ->
      extract_zip d (Py.with_suffix name ".zip") = Some children ->
      entry_outcome d tmpdir name st
        (register ts0 manifest epoch st)
        (map (fun j => EvPut (Some j))
             (upload_jobs tmpdir (Py.stem name) ts0 children)
         ++ [EvRegister ts0 epoch])
        None.

(** Every stored manifest carries an [issuanceDate] that gives its key. *)
Definition consistent (st : store) : Prop :=
  forall k m,
    manifest_by_ts st !! k = Some m ->
    exists d, manifest_date m "issuanceDate" = inr d /\ timestamp_ms d = k.

(** An entry that the loop body passes over whatever the store holds. *)
Definition passed_over (d : directory) (name : string) : Prop :=
  Py.suffix name <> ".json"
  \/ Py.int (Py.stem name) = None
  \/ load_json d name = LoadFailed
  \/ exists manifest,
       load_json d name = Loaded manifest
       /\ (manifest_dates manifest = inl KeyError
           \/ manifest_dates manifest = inl ValueError).

(** An entry that a scan in store [st] leaves alone. *)
Definition settled (d : directory) (st : store) (name : string) : Prop :=
  passed_over d name
  \/ exists ts0,
       Py.int (Py.stem name) = Some ts0 /\ ts0 ∈ dom (manifest_by_ts st).

(** The events before a registration of [ts0] end with the jobs of one entry
    of [names], whose name gives [ts0]: one job for each regular file at the
    top of its extracted archive. *)
Definition entry_jobs_before (d : directory) (tmpdir : string)
  (names : list string) (tr1 : list event) (ts0 : Z) : Prop :=
  exists name children pre,
    name ∈ names
    /\ Py.suffix name = ".json"
    /\ Py.int (Py.stem name) = Some ts0
    /\ extract_zip d (Py.with_suffix name ".zip") = Some children
    /\ tr1 = pre ++ map (fun j => EvPut (Some j))
                       (upload_jobs tmpdir (Py.stem name) ts0 children).

Definition after_its_jobs (env : list (directory * string))
  (tr1 : list event) (ts0 : Z) : Prop :=
  exists d tmpdir,
    (d, tmpdir) ∈ env /\ entry_jobs_before d tmpdir (iterdir d) tr1 ts0.

(** Every registration in [tr] comes right after its jobs, in the sense [J]. *)
Definition registers_after (J : list event -> Z -> Prop) (tr : list event)
  : Prop :=
  forall tr1 ts0 ep tr2, tr = tr1 ++ EvRegister ts0 ep :: tr2 -> J tr1 ts0.

(** The events of a scan. *)
Definition scan_event (e : event) : Prop :=
  match e with
  | EvLog _ _ | EvPut (Some _) | EvRegister _ _ => True
  | _ => False
  end.

End Outcomes.

End Uploader.

(** ** The upload pipeline ([asyncio.Queue] and [upload_to_s3]) *)

Module Pipeline.

Abbreviation job := (string * string)%type (only parsing).

(** A queue item: [None] is the shutdown sentinel. *)
Abbreviation item := (option (string * string)) (only parsing).

(** Where a worker stands in [upload_to_s3]: suspended in [queue.get()], in
    the [try] block with a job, about to [queue.put(None)], or returned. *)
Inductive wstate :=
  | Getting
  | Uploading (j : job)
  | Putting
  | Returned.

(** A worker: its program point, whether [bucket] is set, and two counters
    kept for the proofs (sentinels taken, sentinels put back). *)
Record worker := {
  at_ : wstate;
  bucket : bool;
  seen : nat;
  reput : nat;
}.

Definition fresh : worker :=
  {| at_ := Getting; bucket := false; seen := 0; reput := 0 |}.

(** How the [try] block of a job ends: the upload returned; opening the
    resource or the bucket raised ([bucket] stays [None]); or
    [bucket.upload_file] raised. *)
Inductive upload_outcome :=
  | Uploaded
  | ConnectFailed
  | UploadFailed.

(** The queue, the items the driver has still to put (in program order), the
    workers, and what reached the bucket or was logged as failed. *)
Record pipeline := {
  maxsize : Z;
  queue : list item;
  driver : list item;
  workers : list worker;
  uploaded : list job;
  failed : list job;
}.

(** [Queue.full()]: a queue whose [maxsize] is zero or negative is never
    full. *)
Definition full (p : pipeline) : bool :=
  if (maxsize p <=? 0)%Z then false
  else (maxsize p <=? Z.of_nat (length (queue p)))%Z.

(** The steps between two suspension points. *)
Inductive action :=
  | DriverPut
  | Get (i : nat)
  | Upload (i : nat) (o : upload_outcome)
  | Reput (i : nat).

Definition set_worker (i : nat) (w : worker) (p : pipeline) : pipeline :=
  {| maxsize := maxsize p; queue := queue p; driver := driver p;
     workers := <[i := w]> (workers p);
     uploaded := uploaded p; failed := failed p |}.

Definition set_queue (q : list item) (p : pipeline) : pipeline :=
  {| maxsize := maxsize p; queue := q; driver := driver p;
     workers := workers p; uploaded := uploaded p; failed := failed p |}.

(** What resumes a suspended worker: [queue.get()] returns the item [x]; the
    [try] block of a job ends as [o]; [queue.put(None)] returns. *)
Inductive resumption :=
  | Got (x : item)
  | Tried (o : upload_outcome)
  | PutBack.

(** [upload_to_s3], from one suspension point to the next; [None] when the
    worker is not suspended there.  A sentinel sends the worker to
    [queue.put(None)] and then to [return]; a job sends it into the [try]
    block, which sets [bucket] first when it is [None], and whose exceptions
    are caught, so that the worker goes back to [queue.get()] either way. *)
Definition upload_to_s3 (w : worker) (r : resumption) : option worker :=
  match at_ w, r with
  | Getting, Got None =>
      Some {| at_ := Putting; bucket := bucket w; seen := S (seen w);
              reput := reput w |}
  | Getting, Got (Some j) =>
      Some {| at_ := Uploading j; bucket := bucket w; seen := seen w;
              reput := reput w |}
  | Uploading _, Tried ConnectFailed =>
      if bucket w then None
      else Some {| at_ := Getting; bucket := false; seen := seen w;
                   reput := reput w |}
  | Uploading _, Tried _ =>
      Some {| at_ := Getting; bucket := true; seen := seen w;
              reput := reput w |}
  | Putting, PutBack =>
      Some {| at_ := Returned; bucket := bucket w; seen := seen w;
              reput := S (reput w) |}
  | _, _ => None
  end.

(** [step a p] is [None] when [a] cannot run in [p]: a [put] on a full queue
    and a [get] on an empty one stay suspended.  [DriverPut] is the next
    [await s3_upload_queue.put(...)] of [run]; the other actions resume
    worker [i]. *)
Definition step (a : action) (p : pipeline) : option pipeline :=
  match a with
  | DriverPut =>
      match driver p with
      | [] => None
      | x :: rest =>
          if full p then None
          else Some {| maxsize := maxsize p; queue := queue p ++ [x];
                       driver := rest; workers := workers p;
                       uploaded := uploaded p; failed := failed p |}
      end
  | Get i =>
      match workers p !! i, queue p with
      | Some w, x :: q =>
          match upload_to_s3 w (Got x) with
          | Some w' => Some (set_worker i w' (set_queue q p))
          | None => None
          end
      | _, _ => None
      end
  | Upload i o =>
      match workers p !! i with
      | Some w =>
          match at_ w, upload_to_s3 w (Tried o) with
          | Uploading j, Some w' =>
              Some {| maxsize := maxsize p; queue := queue p;
                      driver := driver p;
                      workers := <[i := w']> (workers p);
                      uploaded :=
                        match o with
                        | Uploaded => uploaded p ++ [j]
                        | _ => uploaded p
                        end;
                      failed :=
                        match o with
                        | Uploaded => failed p
                        | _ => failed p ++ [j]
                        end |}
          | _, _ => None
          end
      | None => None
      end
  | Reput i =>
      match workers p !! i with
      | Some w =>
          if full p then None
          else
            match upload_to_s3 w PutBack with
            | Some w' =>
                Some (set_worker i w' (set_queue (queue p ++ [None]) p))
            | None => None
            end
      | None => None
      end
  end.

(** A run of the event loop: the actions taken, in order. *)
Fixpoint exec (acts : list action) (p : pipeline) : option pipeline :=
  match acts with
  | [] => Some p
  | a :: rest =>
      match step a p with
      | Some p' => exec rest p'
      | None => None
      end
  end.

(** The pipeline at the start of an iteration of [run]:
    [asyncio.Queue(n * 4)], [n] tasks ([range(n)] is empty for [n <= 0]), and
    the items that the iteration will put. *)
Definition start (n : Z) (items : list item) : pipeline :=
  {| maxsize := n * 4; queue := []; driver := items;
     workers := replicate (Z.to_nat n) fresh;
     uploaded := []; failed := [] |}.

(** The items an iteration puts, from its events. *)
Definition puts (tr : list Uploader.event) : list item :=
  omap (fun e => match e with Uploader.EvPut x => Some x | _ => None end) tr.

(** No step can run. *)
Definition quiescent (p : pipeline) : Prop := forall a, step a p = None.

(** One scheduler among many: the first action that can run, every upload
    succeeding. *)
Definition candidates (p : pipeline) : list action :=
  DriverPut
  :: (seq 0 (length (workers p))
        ≫= fun i => [Reput i; Upload i Uploaded; Get i]).

Fixpoint first_step (cands : list action) (p : pipeline) : option pipeline :=
  match cands with
  | [] => None
  | a :: rest =>
      match step a p with
      | Some p' => Some p'
      | None => first_step rest p
      end
  end.

Fixpoint drain (fuel : nat) (p : pipeline) : pipeline :=
  match fuel with
  | 0 => p
  | S f =>
      match first_step (candidates p) p with
      | Some p' => drain f p'
      | None => p
      end
  end.

(** A bound on the number of steps left. *)
Definition weight (w : worker) : nat :=
  match at_ w with
  | Getting => 2
  | Uploading _ => 3
  | Putting => 3
  | Returned => 0
  end.

Definition measure (p : pipeline) : nat :=
  3 * length (driver p) + 2 * length (queue p)
  + sum_list (map weight (workers p)).

(** [step] as a relation, one rule for each way an action runs. *)
Inductive steps (p : pipeline) : action -> pipeline -> Prop :=
  | steps_put x rest :
      driver p = x :: rest ->
      full p = false ->
      steps p DriverPut
        {| maxsize := maxsize p; queue := queue p ++ [x]; driver := rest;
           workers := workers p; uploaded := uploaded p;
           failed := failed p |}
  | steps_get_job i w j q :
      workers p !! i = Some w ->
      at_ w = Getting ->
      queue p = Some j :: q ->
      steps p (Get i)
        (set_worker i {| at_ := Uploading j; bucket := bucket w;
                         seen := seen w; reput := reput w |}
           (set_queue q p))
  | steps_get_sentinel i w q :
      workers p !! i = Some w ->
      at_ w = Getting ->
      queue p = None :: q ->
      steps p (Get i)
        (set_worker i {| at_ := Putting; bucket := bucket w;
                         seen := S (seen w); reput := reput w |}
           (set_queue q p))
  | steps_upload i o w j b up fl :
      workers p !! i = Some w ->
      at_ w = Uploading j ->
      (up = uploaded p ++ [j] /\ fl = failed p
       \/ up = uploaded p /\ fl = failed p ++ [j]) ->
      steps p (Upload i o)
        {| maxsize := maxsize p; queue := queue p; driver := driver p;
           workers := <[i := {| at_ := Getting; bucket := b; seen := seen w;
                                reput := reput w |}]> (workers p);
           uploaded := up; failed := fl |}
  | steps_reput i w :
      workers p !! i = Some w ->
      at_ w = Putting ->
      full p = false ->
      steps p (Reput i)
        (set_worker i {| at_ := Returned; bucket := bucket w;
                         seen := seen w; reput := S (reput w) |}
           (set_queue (queue p ++ [None]) p)).

(** The job a worker is busy with, and the jobs not yet attempted. *)
Definition flight (w : worker) : list job :=
  match at_ w with
  | Uploading j => [j]
  | _ => []
  end.

Definition jobs_of (items : list item) : list job := omap id items.

Definition pending (p : pipeline) : list job :=
  jobs_of (queue p ++ driver p) ++ (workers p ≫= flight).

Definition attempted (p : pipeline) : list job := uploaded p ++ failed p.

(** Every job is either attempted or still to come. *)
Definition accounted (js : list job) (p : pipeline) : Prop :=
  attempted p ++ pending p ≡ₚ js.

(** A worker that has not met the sentinel, one that holds it, and one that
    has put it back and returned. *)
Definition idle (w : worker) : Prop :=
  (at_ w = Getting \/ exists j, at_ w = Uploading j)
  /\ seen w = 0 /\ reput w = 0.

Definition holding (w : worker) : Prop :=
  at_ w = Putting /\ seen w = 1 /\ reput w = 0.

Definition gone (w : worker) : Prop :=
  at_ w = Returned /\ seen w = 1 /\ reput w = 1.

(** Where the one sentinel is: still behind the jobs, in the hands of worker
    [i], or back in the queue after some worker returned. *)
Inductive phase (p : pipeline) : Prop :=
  | sentinel_ahead js :
      queue p ++ driver p = map Some js ++ [None] ->
      Forall idle (workers p) ->
      phase p
  | sentinel_held i w :
      queue p = [] ->
      driver p = [] ->
      workers p !! i = Some w ->
      holding w ->
      (forall k w', k <> i -> workers p !! k = Some w' -> idle w' \/ gone w') ->
      phase p
  | sentinel_back :
      queue p = [None] ->
      driver p = [] ->
      Forall (fun w => idle w \/ gone w) (workers p) ->
      Exists gone (workers p) ->
      phase p.

(** The queue holds no more than [maxsize] items, when [maxsize] is
    positive. *)
Definition bounded (p : pipeline) : Prop :=
  (0 < maxsize p)%Z -> (Z.of_nat (length (queue p)) <= maxsize p)%Z.

End Pipeline.

(** ** A file system with symbolic links, and [rm_rf] *)

Module Fs.

(** A path is its list of components from the root; a file system says what
    is at each physical location.  The root, [[]], is always a directory.
    The target of a symbolic link is a path from the root. *)
Inductive inode :=
  | File
  | Dir
  | Symlink (target : list string).

#[export] Instance inode_eq_dec : EqDecision inode.
Proof. solve_decision. Defined.

Abbreviation path := (list string) (only parsing).
Abbreviation fs := (gmap (list string) inode) (only parsing).

Inductive errno :=
  | ENOENT
  | ENOTDIR
  | ELOOP
  | EISDIR
  | ENOTEMPTY
  | EBUSY.

Definition entry (t : fs) (p : path) : option inode :=
  match p with
  | [] => Some Dir
  | _ => t !! p
  end.

(** Path resolution.  [walk budget t follow cur rest] resolves the components
    [rest] from the directory at the physical location [cur] and gives the
    physical location of what they name.  A symbolic link in the middle of a
    path is always followed; one at its end only when [follow] is set.
    [budget] bounds the links followed in one resolution. *)
Fixpoint walk (budget : nat) (t : fs) (follow : bool) (cur rest : path)
  {struct budget} : errno + path :=
  match budget with
  | 0 => inl ELOOP
  | S b =>
      (fix go (cur rest : path) {struct rest} : errno + path :=
         match rest with
         | [] => inr cur
         | c :: rest' =>
             match t !! (cur ++ [c]) with
             | None => inl ENOENT
             | Some Dir => go (cur ++ [c]) rest'
             | Some File =>
                 match rest' with
                 | [] => inr (cur ++ [c])
                 | _ => inl ENOTDIR
                 end
             | Some (Symlink target) =>
                 match rest', follow with
                 | [], false => inr (cur ++ [c])
                 | _, _ => walk b t follow [] (target ++ rest')
                 end
             end
         end) cur rest
  end.

Definition SYMLOOP_MAX : nat := 40.

Definition resolve (t : fs) (follow : bool) (p : path) : errno + path :=
  walk (S SYMLOOP_MAX) t follow [] p.

(** [path.is_dir()], which follows a final link, and [path.is_symlink()],
    which does not; both answer [False] when the path does not resolve. *)
Definition is_dir (t : fs) (p : path) : bool :=
  match resolve t true p with
  | inr q => match entry t q with Some Dir => true | _ => false end
  | inl _ => false
  end.

Definition is_symlink (t : fs) (p : path) : bool :=
  match resolve t false p with
  | inr q => match entry t q with Some (Symlink _) => true | _ => false end
  | inl _ => false
  end.

(** The name of [k] in the directory at [d], when [k] is directly in it. *)
Definition child_name (d k : path) : option string :=
  match drop (length d) k with
  | [c] => if decide (take (length d) k = d) then Some c else None
  | _ => None
  end.

Definition children (t : fs) (d : path) : list string :=
  omap (child_name d) (elements (dom t)).

(** [path.iterdir()]: the children, as paths under [p] itself. *)
Definition iterdir (t : fs) (p : path) : errno + list path :=
  match resolve t true p with
  | inr q =>
      match entry t q with
      | Some Dir => inr (map (fun c => p ++ [c]) (children t q))
      | _ => inl ENOTDIR
      end
  | inl e => inl e
  end.

(** [path.rmdir()]: the directory must be empty, and a link to a directory
    is not a directory. *)
Definition rmdir (t : fs) (p : path) : errno + fs :=
  match resolve t false p with
  | inr q =>
      match entry t q with
      | Some Dir =>
          match q with
          | [] => inl EBUSY
          | _ =>
              match children t q with
              | [] => inr (delete q t)
              | _ => inl ENOTEMPTY
              end
          end
      | _ => inl ENOTDIR
      end
  | inl e => inl e
  end.

(** [os.unlink]: removes a file or a link, never following the link. *)
Definition unlink (t : fs) (p : path) : errno + fs :=
  match resolve t false p with
  | inr q =>
      match entry t q with
      | Some Dir => inl EISDIR
      | Some _ => inr (delete q t)
      | None => inl ENOENT
      end
  | inl e => inl e
  end.

(** How a call ends: it returns, an [OSError] escapes (with the file system
    as it then is), or the model runs out of fuel. *)
Inductive outcome :=
  | Done (t : fs)
  | Raised (e : errno) (t : fs)
  | OutOfFuel.

(** [path.unlink(missing_ok=True)]: only [FileNotFoundError] is swallowed. *)
Definition unlink_missing_ok (t : fs) (p : path) : outcome :=
  match unlink t p with
  | inr t' => Done t'
  | inl ENOENT => Done t
  | inl e => Raised e t
  end.

(** The loop [for child in path.iterdir(): rm_rf(child)], given what
    [rm_rf] does on a child: an exception leaves the loop. *)
Fixpoint each (rm : fs -> path -> outcome) (kids : list path) (t : fs)
  : outcome :=
  match kids with
  | [] => Done t
  | child :: rest =>
      match rm t child with
      | Done t1 => each rm rest t1
      | r => r
      end
  end.

(** [rm_rf]; [fuel] bounds the depth of the recursion. *)
Fixpoint rm_rf (fuel : nat) (t : fs) (p : path) : outcome :=
  match fuel with
  | 0 => OutOfFuel
  | S f =>
      if is_dir t p && negb (is_symlink t p) then
        match iterdir t p with
        | inl e => Raised e t
        | inr kids =>
            match each (rm_rf f) kids t with
            | Done t1 =>
                match rmdir t1 p with
                | inr t2 => Done t2
                | inl e => Raised e t1
                end
            | r => r
            end
        end
      else unlink_missing_ok t p
  end.

(** The file system that a call leaves. *)
Definition left_by (o : outcome) : option fs :=
  match o with
  | Done t | Raised _ t => Some t
  | OutOfFuel => None
  end.

(** [t'] is [t] with some entries at or below [d] removed. *)
Definition below (d : path) (t t' : fs) : Prop :=
  t' ⊆ t /\ forall k, t' !! k <> t !! k -> d `prefix_of` k.

(** [t'] is [t] with, at most, entries removed at or below the location that
    [p] names, its last link not followed. *)
Definition spares (t : fs) (p : path) (t' : fs) : Prop :=
  t' ⊆ t
  /\ forall k, t' !! k <> t !! k ->
       exists d, resolve t false p = inr d /\ d `prefix_of` k.

(** The length of the longest location in use. *)
Definition height (t : fs) : nat :=
  foldr max 0 (length <$> elements (dom t)).

End Fs.

(** ** Concrete inputs *)

Module Examples.
Import Uploader.

(** A platform for the examples: it reads the three date strings they use, in
    the whole-second format only, and takes whole milliseconds exactly, as
    Python does on these values.  The file names of the examples are short
    and in ASCII, so that what it gives for the others is never used. *)
#[export] Instance platform : Platform := {|
  strptime s fmt :=
    if String.eqb fmt "%Y-%m-%dT%H:%M:%S%z" then
      if String.eqb s "2023-11-14T00:00:00+0000" then Some 1699920000000000%Z
      else if String.eqb s "2023-11-14T22:13:19+0000"
      then Some 1699999999000000%Z
      else if String.eqb s "2023-11-14T22:13:20+0000"
      then Some 1700000000000000%Z
      else None
    else None;
  timestamp_ms d := (d / 1000)%Z;
  platform_int := {| Py.int_beyond _ := None |};
|}.

Definition args : arguments :=
  {| s3_uploaders := 10; indexer_cache := "/var/cache/indexer-scores.csv" |}.

(** A manifest with the given dates. *)
Definition manifest (epoch issuance effective : string) : json_doc :=
  JObject (<["epoch" := JString epoch]>
            (<["issuanceDate" := JString issuance]>
              (<["effectiveDate" := JString effective]> ∅))).

Definition good_manifest : json_doc :=
  manifest "2023-11-14T00:00:00+0000" "2023-11-14T22:13:20+0000"
           "2023-11-14T22:13:20+0000".

(** [1700000000000.json] beside [1700000000000.zip], whose only member is
    [a.dat]. *)
Definition one_file : directory :=
  {| iterdir := ["1700000000000.json"; "1700000000000.zip"];
     load_json name :=
       if String.eqb name "1700000000000.json" then Loaded good_manifest
       else LoadFailed;
     extract_zip name :=
       if String.eqb name "1700000000000.zip" then Some [XFile "a.dat"]
       else None |}.

(** The same manifest, with an archive that also holds [sub/b.dat]. *)
Definition nested_file : directory :=
  {| iterdir := ["1700000000000.json"; "1700000000000.zip"];
     load_json name :=
       if String.eqb name "1700000000000.json" then Loaded good_manifest
       else LoadFailed;
     extract_zip name :=
       if String.eqb name "1700000000000.zip"
       then Some [XFile "a.dat"; XDir "sub" [XFile "b.dat"]]
       else None |}.

(** A manifest whose archive is missing, listed before a complete pair. *)
Definition missing_archive : directory :=
  {| iterdir := ["1699999999000.json"; "1700000000000.json";
                 "1700000000000.zip"];
     load_json name :=
       if String.eqb name "1699999999000.json"
       then Loaded (manifest "2023-11-14T00:00:00+0000"
                             "2023-11-14T22:13:19+0000"
                             "2023-11-14T22:13:19+0000")
       else if String.eqb name "1700000000000.json" then Loaded good_manifest
       else LoadFailed;
     extract_zip name :=
       if String.eqb name "1700000000000.zip" then Some [XFile "a.dat"]
       else None |}.

(** The same listing with both archives there, but a first manifest that
    cannot be read. *)
Definition unreadable_manifest : directory :=
  {| iterdir := ["1699999999000.json"; "1699999999000.zip";
                 "1700000000000.json"; "1700000000000.zip"];
     load_json name :=
       if String.eqb name "1700000000000.json" then Loaded good_manifest
       else LoadFailed;
     extract_zip name :=
       if String.eqb name "1700000000000.zip" then Some [XFile "a.dat"]
       else if String.eqb name "1699999999000.zip" then Some [XFile "a.dat"]
       else None |}.

(** A manifest named [1699999999000.json] whose [issuanceDate] is one second
    later than its name says, listed before a complete pair; both archives
    are there. *)
Definition mismatched : directory :=
  {| iterdir := ["1699999999000.json"; "1699999999000.zip";
                 "1700000000000.json"; "1700000000000.zip"];
     load_json name :=
       if String.eqb name "1699999999000.json" then Loaded good_manifest
       else if String.eqb name "1700000000000.json" then Loaded good_manifest
       else LoadFailed;
     extract_zip name :=
       if String.eqb name "1700000000000.zip" then Some [XFile "a.dat"]
       else if String.eqb name "1699999999000.zip" then Some [XFile "a.dat"]
       else None |}.

(** A manifest whose name starts with the separator FS (byte 28),
    [\x1c12.json], and whose dates do not give 12, listed before a complete
    pair. *)
Definition separator_name : directory :=
  {| iterdir := [String (ascii_of_nat 28) "12.json"; "1700000000000.json";
                 "1700000000000.zip"];
     load_json name :=
       if String.eqb name (String (ascii_of_nat 28) "12.json")
       then Loaded good_manifest
       else if String.eqb name "1700000000000.json" then Loaded good_manifest
       else LoadFailed;
     extract_zip name :=
       if String.eqb name "1700000000000.zip" then Some [XFile "a.dat"]
       else None |}.

(** A directory with nothing in it. *)
Definition empty_dir : directory :=
  {| iterdir := []; load_json _ := LoadFailed; extract_zip _ := None |}.

(** Two workers and one job: a schedule that runs to the end, and the state
    it ends in. *)
Definition index_job : string * string :=
  ("/tmp/ws/list.json", "api/scores/list.json").

Definition schedule : list Pipeline.action :=
  [Pipeline.DriverPut; Pipeline.DriverPut; Pipeline.Get 0;
   Pipeline.Upload 0 Pipeline.Uploaded; Pipeline.Get 1; Pipeline.Reput 1;
   Pipeline.Get 0; Pipeline.Reput 0].

Definition drained : Pipeline.pipeline :=
  {| Pipeline.maxsize := 8;
     Pipeline.queue := [None];
     Pipeline.driver := [];
     Pipeline.workers :=
       [{| Pipeline.at_ := Pipeline.Returned; Pipeline.bucket := true;
           Pipeline.seen := 1; Pipeline.reput := 1 |};
        {| Pipeline.at_ := Pipeline.Returned; Pipeline.bucket := false;
           Pipeline.seen := 1; Pipeline.reput := 1 |}];
     Pipeline.uploaded := [index_job];
     Pipeline.failed := [] |}.

(** A workspace [/tmp/ws] with an extracted file, the index, a directory and
    a link to [/srv/data], which lies outside it and holds a file. *)
Definition disk : gmap (list string) Fs.inode :=
  list_to_map
    [(["tmp"], Fs.Dir);
     (["tmp"; "ws"], Fs.Dir);
     (["tmp"; "ws"; "list.json"], Fs.File);
     (["tmp"; "ws"; "17"], Fs.Dir);
     (["tmp"; "ws"; "17"; "a.dat"], Fs.File);
     (["tmp"; "ws"; "17"; "link"], Fs.Symlink ["srv"; "data"]);
     (["srv"], Fs.Dir);
     (["srv"; "data"], Fs.Dir);
     (["srv"; "data"; "keep.csv"], Fs.File)].

Definition disk_after : gmap (list string) Fs.inode :=
  list_to_map
    [(["tmp"], Fs.Dir);
     (["srv"], Fs.Dir);
     (["srv"; "data"], Fs.Dir);
     (["srv"; "data"; "keep.csv"], Fs.File)].

End Examples.

(** * Properties *)

(** ** Python built-ins *)

Module PyFacts.
Import Py.

Section Int.
Context `{IntBeyond}.

Example int_plain : int "1700000000000" = Some 1700000000000%Z.
Proof. reflexivity. Qed.

Example int_padded : int " +1_000 " = Some 1000%Z.
Proof. reflexivity. Qed.

Example int_rejects :
  int "" = None /\ int "1__0" = None /\ int "_1" = None /\ int "1_" = None
  /\ int "- 1" = None /\ int "list" = None.
Proof. repeat split. Qed.

(** The separators FS, GS, RS and US are not blanks for [int()], and a blank
    between the sign and the digits is refused. *)
Example int_control_characters :
  int (String (ascii_of_nat 28) "12") = None
  /\ int ("12" +:+ String (ascii_of_nat 31) EmptyString) = None
  /\ int (String (ascii_of_nat 9) "12") = Some 12%Z
  /\ int (String (ascii_of_nat 0) "12") = None.
Proof. repeat split. Qed.

(** On a string of at most 4300 ASCII characters [int] does not depend on
    the platform. *)
Lemma int_ascii (other : IntBeyond) (s : string) :
  isascii s = true -> String.length s <= 4300 ->
  @int other s = int s.
Proof.
  intros Hascii Hlen. unfold int. rewrite Hascii.
  by rewrite (proj2 (Nat.leb_le _ _) Hlen).
Qed.

End Int.

Example split_json :
  split_name "1700000000000.json" = ("1700000000000", ".json").
Proof. reflexivity. Qed.

Example split_hidden : split_name ".json" = (".json", "").
Proof. reflexivity. Qed.

Example with_suffix_zip : with_suffix "17.json" ".zip" = "17.zip".
Proof. reflexivity. Qed.

Lemma str_inj (a b : Z) : str a = str b -> a = b.
Proof. unfold str. apply (inj pretty). Qed.

End PyFacts.

(** ** The publish cycle *)

Module UploaderFacts.
Import Uploader.

(** *** Lists and traces *)

Lemma split_app {A} (a b tr1 tr2 : list A) (x : A) :
  a ++ b = tr1 ++ x :: tr2 ->
  (exists a2, a = tr1 ++ x :: a2 /\ tr2 = a2 ++ b)
  \/ (exists b1, tr1 = a ++ b1 /\ b = b1 ++ x :: tr2).
Proof.
  revert tr1. induction a as [|y a IH]; intros tr1 Heq; simpl in *.
  - right. by exists tr1.
  - destruct tr1 as [|z tr1]; simpl in *.
    + injection Heq as -> <-. left. by exists a.
    + injection Heq as -> Heq. destruct (IH _ Heq) as [[a2 [-> ->]]|[b1 [-> ->]]].
      * left. by exists a2.
      * right. by exists b1.
Qed.

Lemma head_subseteq {A} (x : A) (l : list A) : [x] ⊆ x :: l.
Proof. intros y Hy. apply list_elem_of_singleton in Hy as ->. by left. Qed.

Lemma tail_subseteq {A} (x : A) (l : list A) : l ⊆ x :: l.
Proof. by apply list_subseteq_cons. Qed.

Lemma registrations_app (a b : list event) :
  registrations (a ++ b) = registrations a ++ registrations b.
Proof. unfold registrations. apply omap_app. Qed.

Lemma registered_app (a b : list event) :
  registered (a ++ b) = registered a ++ registered b.
Proof. unfold registered. by rewrite registrations_app, fmap_app. Qed.

Lemma registrations_logs (tr : list event) :
  Forall is_log tr -> registrations tr = [].
Proof.
  induction 1 as [|e tr He _ IH]; [done|].
  destruct e; simpl in *; try done.
Qed.

Lemma registrations_job_puts (js : list (string * string)) :
  registrations (map (fun j => EvPut (Some j)) js) = [].
Proof. induction js as [|j js IH]; [done|]. by simpl. Qed.

Lemma StronglySorted_le_lt (l : list Z) :
  StronglySorted Z.le l -> NoDup l -> StronglySorted Z.lt l.
Proof.
  induction 1 as [|x l Hs IH Hall]; intros Hnd; [constructor|].
  apply NoDup_cons in Hnd as [Hx Hnd].
  constructor; [by apply IH|].
  rewrite Forall_forall in Hall |- *. intros y Hy.
  specialize (Hall y Hy).
  assert (x <> y) by (intros ->; done).
  lia.
Qed.

Lemma max_epoch_spec (m : gmap Z (gset Z)) :
  match max_epoch m with
  | Some e => e ∈ dom m /\ forall e', e' ∈ dom m -> (e' <= e)%Z
  | None => m = ∅
  end.
Proof.
  unfold max_epoch.
  destruct (elements (dom m)) as [|k ks] eqn:Hel.
  - apply elements_empty_inv in Hel. by apply dom_empty_inv.
  - assert (Hin : forall e, e ∈ dom m <-> e ∈ k :: ks).
    { intros e. by rewrite <- Hel, elem_of_elements. }
    clear Hel.
    assert (Hmax : foldr Z.max k ks ∈ k :: ks
                   /\ forall e', e' ∈ k :: ks -> (e' <= foldr Z.max k ks)%Z).
    { clear. induction ks as [|x ks [IH1 IH2]]; simpl.
      - split; [by left|]. intros e' ->%list_elem_of_singleton. lia.
      - split.
        + destruct (Z.max_spec x (foldr Z.max k ks)) as [[_ ->]|[_ ->]].
          * apply elem_of_cons in IH1 as [->|?]; [by left|]. by do 2 right.
          * right. by left.
        + intros e' He'. apply elem_of_cons in He' as [->|He'].
          * specialize (IH2 k ltac:(by left)). lia.
          * apply elem_of_cons in He' as [->|He']; [lia|].
            specialize (IH2 e' ltac:(by right)). lia. }
    destruct Hmax as [H1 H2]. split; [by apply Hin|].
    intros e' He'. apply H2. by apply Hin.
Qed.

Lemma index_list_spec (s : gset Z) :
  StronglySorted Z.lt (merge_sort Z.le (elements s))
  /\ (forall t, t ∈ merge_sort Z.le (elements s) <-> t ∈ s)
  /\ NoDup (index_list s).
Proof.
  assert (Hperm := merge_sort_Permutation Z.le (elements s)).
  assert (Hnd : NoDup (merge_sort Z.le (elements s))).
  { rewrite Hperm. apply NoDup_elements. }
  split; [|split].
  - apply StronglySorted_le_lt; [|done].
    apply StronglySorted_merge_sort; [intros x y z; lia|].
    intros x y. lia.
  - intros t. by rewrite Hperm, elem_of_elements.
  - unfold index_list. apply NoDup_fmap_2; [|done].
    intros a b. apply PyFacts.str_inj.
Qed.

Lemma indexes_ok_app (b a1 a2 : list event) :
  indexes_ok b a1 -> indexes_ok (b ++ a1) a2 -> indexes_ok b (a1 ++ a2).
Proof.
  intros H1 H2 tr1 path content tr2 Heq.
  destruct (split_app _ _ _ _ _ Heq) as [[x [-> ->]]|[x [-> ->]]].
  - by eapply H1.
  - rewrite (assoc app). by eapply H2.
Qed.

Lemma indexes_ok_quiet (b tr : list event) :
  Forall (fun e => ~ is_write e) tr -> indexes_ok b tr.
Proof.
  intros Hall tr1 path content tr2 ->.
  apply Forall_app in Hall as [_ Hall]. apply Forall_cons in Hall as [Hw _].
  by destruct Hw.
Qed.

Lemma indexes_ok_write (b : list event) (path : string) (c : list string) :
  index_of b c -> indexes_ok b [EvWrite path c].
Proof.
  intros Hc tr1 path' content tr2 Heq.
  destruct tr1 as [|x tr1]; simpl in Heq.
  - injection Heq as -> ->. by rewrite (right_id [] app).
  - injection Heq as _ Heq. by destruct tr1.
Qed.

Section WithPlatform.
Context `{Platform}.

(** *** What the loop body can do *)

Lemma scan_entry_outcome d tmpdir name st :
  match scan_entry d tmpdir name st with
  | (st', tr, r) => entry_outcome d tmpdir name st st' tr r
  end.
Proof.
  unfold scan_entry.
  destruct (String.eqb (Py.suffix name) ".json") eqn:Hsuf;
    [ | by constructor ].
  apply String.eqb_eq in Hsuf.
  destruct (Py.int (Py.stem name)) as [ts0|] eqn:Hint; [ | by constructor ].
  case_decide as Hdom; [ by constructor | ].
  destruct (load_json d name) as [manifest| |e] eqn:Hload;
    [ | constructor; repeat constructor | constructor ].
  destruct (manifest_dates manifest) as [e|[[epoch ts] ets]] eqn:Hdates.
  { destruct e; try constructor; repeat constructor. }
  destruct (Z.eqb (timestamp_ms ts) ts0) eqn:Hts; [ | constructor ].
  apply Z.eqb_eq in Hts.
  destruct (extract_zip d (Py.with_suffix name ".zip")) as [children|] eqn:Hzip;
    [ | constructor ].
  by eapply entry_registered.
Qed.

(** *** The store follows the trace *)

Lemma agrees_empty : agrees empty_store [].
Proof.
  unfold agrees, registered, empty_store. simpl.
  split; [|split; [|split]].
  - intros t e. rewrite lookup_empty. simpl. set_solver.
  - intros e. rewrite dom_empty. set_solver.
  - intros t. rewrite dom_empty. set_solver.
  - constructor.
Qed.

Lemma agrees_quiet st tr tr' :
  agrees st tr -> registrations tr' = [] -> agrees st (tr ++ tr').
Proof.
  unfold agrees, registered. intros Hag Hq.
  assert (registrations (tr ++ tr') = registrations tr) as ->; [|done].
  rewrite registrations_app, Hq. apply app_nil_r.
Qed.

Lemma agrees_register st tr ts0 m e js :
  agrees st tr ->
  ts0 ∉ dom (manifest_by_ts st) ->
  agrees (register ts0 m e st)
         (tr ++ map (fun j => EvPut (Some j)) js ++ [EvRegister ts0 e]).
Proof.
  intros (H1 & H2 & H3 & H4) Hfresh.
  unfold agrees, registered.
  rewrite !registrations_app, registrations_job_puts. simpl.
  rewrite fmap_app. simpl.
  repeat split.
  - destruct (decide (e = e0)) as [<-|Hne].
    + rewrite lookup_insert_eq. simpl.
      rewrite elem_of_union, elem_of_singleton, H1, elem_of_app,
        list_elem_of_singleton.
      intros [->|?]; [by right|by left].
    + rewrite lookup_insert_ne by done. rewrite H1, elem_of_app.
      by left.
  - simpl. destruct (decide (e = e0)) as [<-|Hne].
    + rewrite lookup_insert_eq. simpl.
      rewrite elem_of_union, elem_of_singleton, H1, elem_of_app,
        list_elem_of_singleton.
      intros [?|[= ->]]; [by right|by left].
    + rewrite lookup_insert_ne by done. rewrite H1, elem_of_app,
        list_elem_of_singleton.
      intros [?|[= _ <-]]; done.
  - simpl. intros e0. rewrite dom_insert, elem_of_union, elem_of_singleton.
    intros [->|Hin].
    + exists ts0. rewrite elem_of_app, list_elem_of_singleton. by right.
    + destruct (H2 _ Hin) as [t Ht]. exists t. rewrite elem_of_app. by left.
  - simpl. rewrite dom_insert, elem_of_union, elem_of_singleton, elem_of_app,
      list_elem_of_singleton. intros [->|Hin]; [by right|].
    left. by apply H3.
  - simpl. rewrite dom_insert, elem_of_union, elem_of_singleton, elem_of_app,
      list_elem_of_singleton. intros [Hin| ->]; [|by left].
    right. by apply H3.
  - apply NoDup_app. split; [done|]. split; [|apply NoDup_singleton].
    intros x Hx ->%list_elem_of_singleton. apply Hfresh. by apply H3.
Qed.

Lemma scan_entry_agrees d tmpdir name st st' tr r before :
  scan_entry d tmpdir name st = (st', tr, r) ->
  agrees st before -> agrees st' (before ++ tr).
Proof.
  intros Heq Hag. pose proof (scan_entry_outcome d tmpdir name st) as Hout.
  rewrite Heq in Hout. destruct Hout.
  - apply agrees_quiet; [done|]. by apply registrations_logs.
  - by rewrite (right_id [] app).
  - by apply agrees_register.
Qed.

Lemma scan_agrees d tmpdir names st st' tr r before :
  scan d tmpdir names st = (st', tr, r) ->
  agrees st before -> agrees st' (before ++ tr).
Proof.
  revert st st' tr r before.
  induction names as [|name rest IH]; intros st st' tr r before; simpl.
  - intros [= <- <- <-] Hag. by rewrite (right_id [] app).
  - destruct (scan_entry d tmpdir name st) as [[st1 tr1] [e|]] eqn:Hentry.
    + intros [= <- <- <-] Hag. by eapply scan_entry_agrees.
    + destruct (scan d tmpdir rest st1) as [[st2 tr2] r2] eqn:Hscan.
      intros [= <- <- <-] Hag. rewrite (assoc app).
      eapply IH; [done|]. by eapply scan_entry_agrees.
Qed.

(** *** The shape of a scan and of an iteration *)

Lemma scan_app d tmpdir pre rest st :
  scan d tmpdir (pre ++ rest) st =
  match scan d tmpdir pre st with
  | (st1, tr1, Some e) => (st1, tr1, Some e)
  | (st1, tr1, None) =>
      match scan d tmpdir rest st1 with
      | (st2, tr2, r) => (st2, tr1 ++ tr2, r)
      end
  end.
Proof.
  revert st. induction pre as [|name pre IH]; intros st; simpl.
  - by destruct (scan d tmpdir rest st) as [[st2 tr2] r].
  - destruct (scan_entry d tmpdir name st) as [[st1 tr1] [e|]]; [done|].
    rewrite IH. destruct (scan d tmpdir pre st1) as [[st2 tr2] [e|]]; [done|].
    destruct (scan d tmpdir rest st2) as [[st3 tr3] r].
    by rewrite (assoc app).
Qed.

Lemma run_app args env1 env2 st :
  run args (env1 ++ env2) st =
  match run args env1 st with
  | (st1, tr1, Some e) => (st1, tr1, Some e)
  | (st1, tr1, None) =>
      match run args env2 st1 with
      | (st2, tr2, r) => (st2, tr1 ++ tr2, r)
      end
  end.
Proof.
  revert st. induction env1 as [|[d tmpdir] env1 IH]; intros st; simpl.
  - by destruct (run args env2 st) as [[st2 tr2] r].
  - destruct (cycle args d tmpdir st) as [[st1 tr1] c].
    assert (Hgo :
      match run args (env1 ++ env2) st1 with
      | (st2, tr2, r) => (st2, tr1 ++ tr2, r)
      end =
      match
        match run args env1 st1 with
        | (st2, tr2, r) => (st2, tr1 ++ tr2, r)
        end
      with
      | (st2, tr2, Some e) => (st2, tr2, Some e)
      | (st2, tr2, None) =>
          match run args env2 st2 with
          | (st3, tr3, r) => (st3, tr2 ++ tr3, r)
          end
      end).
    { rewrite IH. destruct (run args env1 st1) as [[st2 tr2] [e|]]; [done|].
      destruct (run args env2 st2) as [[st3 tr3] r].
      by rewrite (assoc app). }
    by destruct c.
Qed.

Lemma entry_events d tmpdir name st st' tr r :
  entry_outcome d tmpdir name st st' tr r -> Forall scan_event tr.
Proof.
  destruct 1 as [tr Hlogs|e|].
  - eapply Forall_impl; [done|]. by intros [].
  - constructor.
  - apply Forall_app. split; [|by repeat constructor].
    apply Forall_forall. intros e [j [-> _]]%list_elem_of_fmap. done.
Qed.

Lemma scan_events d tmpdir names st st' tr r :
  scan d tmpdir names st = (st', tr, r) -> Forall scan_event tr.
Proof.
  revert st st' tr r.
  induction names as [|name rest IH]; intros st st' tr r; simpl.
  - intros [= <- <- <-]. constructor.
  - pose proof (scan_entry_outcome d tmpdir name st) as Hout.
    destruct (scan_entry d tmpdir name st) as [[st1 tr1] [e|]].
    + intros [= <- <- <-]. by eapply entry_events.
    + destruct (scan d tmpdir rest st1) as [[st2 tr2] r2] eqn:Hscan.
      intros [= <- <- <-]. apply Forall_app. split.
      * by eapply entry_events.
      * by eapply IH.
Qed.

(** How an iteration ends, and with which events. *)
Lemma cycle_cases args d tmpdir st :
  match cycle args d tmpdir st with
  | (st1, tr, c) =>
      exists scan_tr r,
        scan d tmpdir (iterdir d) st = (st1, scan_tr, r)
        /\ match c with
           | Raised e =>
               r = Some e
               /\ tr = prologue args tmpdir ++ scan_tr ++ finally tmpdir
           | Continued =>
               r = None
               /\ max_epoch (timestamps_by_epoch st1) = None
               /\ tr = prologue args tmpdir ++ scan_tr ++ finally tmpdir
           | Completed =>
               r = None
               /\ exists e,
                   max_epoch (timestamps_by_epoch st1) = Some e
                   /\ tr = prologue args tmpdir ++ scan_tr
                          ++ publish args tmpdir
                               (default ∅ (timestamps_by_epoch st1 !! e))
                          ++ finally tmpdir ++ [EvSleep 10]
           end
  end.
Proof.
  unfold cycle.
  destruct (scan d tmpdir (iterdir d) st) as [[st1 scan_tr] [e|]].
  - by exists scan_tr, (Some e).
  - destruct (max_epoch (timestamps_by_epoch st1)) as [e|] eqn:Hmax.
    + exists scan_tr, None. repeat split. by exists e.
    + by exists scan_tr, None.
Qed.

Lemma cycle_agrees args d tmpdir st st1 tr c before :
  cycle args d tmpdir st = (st1, tr, c) ->
  agrees st before -> agrees st1 (before ++ tr).
Proof.
  intros Heq Hag. pose proof (cycle_cases args d tmpdir st) as Hc.
  rewrite Heq in Hc. destruct Hc as (scan_tr & r & Hscan & Hc).
  pose proof (scan_agrees _ _ _ _ _ _ _ _ Hscan Hag) as Hag1.
  assert (Hsame : forall tail, registrations tail = [] ->
            agrees st1 (before ++ prologue args tmpdir ++ scan_tr ++ tail)).
  { intros tail Htail. destruct Hag1 as (H1 & H2 & H3 & H4).
    unfold agrees, registered in *.
    assert (registrations (before ++ prologue args tmpdir ++ scan_tr ++ tail)
            = registrations (before ++ scan_tr)) as ->; [|done].
    rewrite !registrations_app, Htail. simpl. by rewrite app_nil_r. }
  destruct c as [| |e].
  - destruct Hc as (_ & e & _ & ->). by apply Hsame.
  - destruct Hc as (_ & _ & ->). by apply Hsame.
  - destruct Hc as (_ & ->). by apply Hsame.
Qed.

Lemma run_agrees args env st st1 tr r before :
  run args env st = (st1, tr, r) ->
  agrees st before -> agrees st1 (before ++ tr).
Proof.
  revert st st1 tr r before.
  induction env as [|[d tmpdir] env IH]; intros st st1 tr r before; simpl.
  - intros [= <- <- <-] Hag. by rewrite app_nil_r.
  - destruct (cycle args d tmpdir st) as [[st2 tr2] c] eqn:Hcycle.
    pose proof (fun Hag => cycle_agrees _ _ _ _ _ _ _ before Hcycle Hag) as Hc.
    destruct (run args env st2) as [[st3 tr3] r3] eqn:Hrun.
    assert (Hgo : (st3, tr2 ++ tr3, r3) = (st1, tr, r) ->
                  agrees st before -> agrees st1 (before ++ tr)).
    { intros [= <- <- <-] Hag. rewrite (assoc app). eapply IH; [done|].
      by apply Hc. }
    destruct c; [done|done|].
    intros [= <- <- <-] Hag. by apply Hc.
Qed.

(** *** The published index *)

Lemma scan_event_quiet (e : event) : scan_event e -> ~ is_write e.
Proof. destruct e; simpl; tauto. Qed.

Lemma index_of_store st before e :
  agrees st before ->
  max_epoch (timestamps_by_epoch st) = Some e ->
  index_of before (index_list (default ∅ (timestamps_by_epoch st !! e))).
Proof.
  intros (H1 & H2 & _ & _) Hmax.
  pose proof (max_epoch_spec (timestamps_by_epoch st)) as Hspec.
  rewrite Hmax in Hspec. destruct Hspec as [Hdom Hle].
  pose proof (index_list_spec (default ∅ (timestamps_by_epoch st !! e)))
    as (Hsorted & Hmem & Hnd).
  exists e, (merge_sort Z.le
               (elements (default ∅ (timestamps_by_epoch st !! e)))).
  split; [by apply H2|]. split.
  { intros t e' Hin. apply Hle. apply H1 in Hin.
    apply elem_of_dom. destruct (timestamps_by_epoch st !! e'); [done|].
    simpl in Hin. set_solver. }
  split; [done|]. split; [done|]. split; [|done].
  intros t. by rewrite Hmem, H1.
Qed.

Lemma cycle_indexes_ok args d tmpdir st st1 tr c before :
  cycle args d tmpdir st = (st1, tr, c) ->
  agrees st before -> indexes_ok before tr.
Proof.
  intros Heq Hag. pose proof (cycle_cases args d tmpdir st) as Hc.
  rewrite Heq in Hc. destruct Hc as (scan_tr & r & Hscan & Hc).
  assert (Hquiet : Forall (fun e => ~ is_write e) scan_tr).
  { eapply Forall_impl; [by eapply scan_events|]. apply scan_event_quiet. }
  assert (Hpro : Forall (fun e => ~ is_write e) (prologue args tmpdir)).
  { repeat constructor; by intros []. }
  assert (Hfin : Forall (fun e => ~ is_write e) (finally tmpdir)).
  { repeat constructor; by intros []. }
  destruct c as [| |e].
  - destruct Hc as (_ & e & Hmax & ->).
    apply indexes_ok_app; [by apply indexes_ok_quiet|].
    apply indexes_ok_app; [by apply indexes_ok_quiet|].
    unfold publish.
    apply (indexes_ok_app _ [_]).
    + apply indexes_ok_write.
      assert (Hag1 : agrees st1 ((before ++ prologue args tmpdir) ++ scan_tr)).
      { eapply scan_agrees; [done|]. by apply agrees_quiet. }
      by apply index_of_store.
    + apply indexes_ok_quiet. repeat constructor; by intros [].
  - destruct Hc as (_ & _ & ->). apply indexes_ok_quiet.
    by rewrite !Forall_app.
  - destruct Hc as (_ & ->). apply indexes_ok_quiet.
    by rewrite !Forall_app.
Qed.

Lemma run_indexes_ok args env st st1 tr r before :
  run args env st = (st1, tr, r) ->
  agrees st before -> indexes_ok before tr.
Proof.
  revert st st1 tr r before.
  induction env as [|[d tmpdir] env IH]; intros st st1 tr r before; simpl.
  - intros [= <- <- <-] Hag. by apply indexes_ok_quiet.
  - destruct (cycle args d tmpdir st) as [[st2 tr2] c] eqn:Hcycle.
    pose proof (fun Hag => cycle_agrees _ _ _ _ _ _ _ before Hcycle Hag) as Hc.
    pose proof (fun Hag => cycle_indexes_ok _ _ _ _ _ _ _ before Hcycle Hag)
      as Hi.
    destruct (run args env st2) as [[st3 tr3] r3] eqn:Hrun.
    assert (Hgo : (st3, tr2 ++ tr3, r3) = (st1, tr, r) ->
                  agrees st before -> indexes_ok before tr).
    { intros [= <- <- <-] Hag. apply indexes_ok_app; [by apply Hi|].
      eapply IH; [done|]. by apply Hc. }
    destruct c; [done|done|].
    intros [= <- <- <-] Hag. by apply Hi.
Qed.

(** *** What a scan, an iteration and a run preserve *)

Lemma scan_preserves (P : store -> Prop) d tmpdir :
  (forall name st st' tr r,
      scan_entry d tmpdir name st = (st', tr, r) -> P st -> P st') ->
  forall names st st' tr r,
    scan d tmpdir names st = (st', tr, r) -> P st -> P st'.
Proof.
  intros Hentry names.
  induction names as [|name rest IH]; intros st st' tr r; simpl.
  - by intros [= <- <- <-].
  - destruct (scan_entry d tmpdir name st) as [[st1 tr1] [e|]] eqn:Hone.
    + intros [= <- <- <-]. by eapply Hentry.
    + destruct (scan d tmpdir rest st1) as [[st2 tr2] r2] eqn:Hscan.
      intros [= <- <- <-] HP. eapply IH; [done|]. by eapply Hentry.
Qed.

Lemma cycle_store args d tmpdir st :
  exists tr r, scan d tmpdir (iterdir d) st
               = ((cycle args d tmpdir st).1.1, tr, r).
Proof.
  pose proof (cycle_cases args d tmpdir st) as Hc.
  destruct (cycle args d tmpdir st) as [[st1 tr] c].
  destruct Hc as (scan_tr & r & Hscan & _). by exists scan_tr, r.
Qed.

Lemma run_preserves (P : store -> Prop) args :
  (forall d tmpdir name st st' tr r,
      scan_entry d tmpdir name st = (st', tr, r) -> P st -> P st') ->
  forall env st st' tr r,
    run args env st = (st', tr, r) -> P st -> P st'.
Proof.
  intros Hentry env.
  induction env as [|[d tmpdir] env IH]; intros st st' tr r; simpl.
  - by intros [= <- <- <-].
  - destruct (cycle_store args d tmpdir st) as (scan_tr & r1 & Hscan).
    destruct (cycle args d tmpdir st) as [[st1 tr1] c]. simpl in Hscan.
    assert (HP1 : P st -> P st1).
    { eapply scan_preserves; [|done]. apply Hentry. }
    destruct (run args env st1) as [[st2 tr2] r2] eqn:Hrun.
    assert (Hgo : (st2, tr1 ++ tr2, r2) = (st', tr, r) -> P st -> P st').
    { intros [= <- <- <-] HP. eapply IH; [done|]. by apply HP1. }
    destruct c; [done|done|].
    intros [= <- <- <-]. done.
Qed.

(** Registering never touches an entry that is already there. *)
Lemma scan_entry_grows d tmpdir name st st' tr r :
  scan_entry d tmpdir name st = (st', tr, r) ->
  manifest_by_ts st ⊆ manifest_by_ts st'.
Proof.
  intros Heq. pose proof (scan_entry_outcome d tmpdir name st) as Hout.
  rewrite Heq in Hout. destruct Hout as [| |ts0 ? ? ? ? ? ? ? Hfresh]; [done..|].
  simpl. apply insert_subseteq. by apply not_elem_of_dom.
Qed.

Lemma manifest_dates_issuance manifest epoch ts ets :
  manifest_dates manifest = inr (epoch, ts, ets) ->
  manifest_date manifest "issuanceDate" = inr ts.
Proof.
  unfold manifest_dates.
  destruct (manifest_date manifest "epoch"); [done|].
  destruct (manifest_date manifest "issuanceDate"); [done|].
  destruct (manifest_date manifest "effectiveDate"); [done|].
  by intros [= _ -> _].
Qed.

Lemma scan_entry_consistent d tmpdir name st st' tr r :
  scan_entry d tmpdir name st = (st', tr, r) ->
  consistent st -> consistent st'.
Proof.
  intros Heq Hcons. pose proof (scan_entry_outcome d tmpdir name st) as Hout.
  rewrite Heq in Hout.
  destruct Hout as [| |ts0 manifest epoch ts ets ? ? ? ? ? Hdates Hts];
    [done..|].
  intros k m. simpl. rewrite lookup_insert.
  case_decide as Hk; [|by apply Hcons].
  intros [= <-]. subst k. exists ts. split; [|done].
  by eapply manifest_dates_issuance.
Qed.

(** *** Entries that a later scan leaves alone *)

Lemma scan_entry_settles d tmpdir name st st' tr :
  scan_entry d tmpdir name st = (st', tr, None) -> settled d st' name.
Proof.
  unfold scan_entry, settled, passed_over.
  destruct (String.eqb (Py.suffix name) ".json") eqn:Hsuf.
  2:{ intros _. left. left. intros Heq. apply String.eqb_neq in Hsuf. done. }
  destruct (Py.int (Py.stem name)) as [ts0|] eqn:Hint; [|by intros _; left; right; left].
  case_decide as Hdom.
  { intros [= <- _]. right. by exists ts0. }
  destruct (load_json d name) as [manifest| |e] eqn:Hload;
    [| by intros _; left; right; right; left | done].
  destruct (manifest_dates manifest) as [e|[[epoch ts] ets]] eqn:Hdates.
  { destruct e; try done; intros _; left; right; right; right;
      exists manifest; split; auto. }
  destruct (Z.eqb (timestamp_ms ts) ts0); [|done].
  destruct (extract_zip d (Py.with_suffix name ".zip")); [|done].
  intros [= <- _]. right. exists ts0. split; [done|]. simpl.
  rewrite dom_insert. set_solver.
Qed.

Lemma settled_mono d st st' name :
  manifest_by_ts st ⊆ manifest_by_ts st' ->
  settled d st name -> settled d st' name.
Proof.
  intros Hsub [Hp|(ts0 & Hint & Hdom)]; [by left|].
  right. exists ts0. split; [done|].
  apply subseteq_dom in Hsub. set_solver.
Qed.

Lemma settled_skip d tmpdir name st :
  settled d st name ->
  exists tr, scan_entry d tmpdir name st = (st, tr, None) /\ Forall is_log tr.
Proof.
  unfold scan_entry, settled, passed_over.
  intros Hs.
  destruct (String.eqb (Py.suffix name) ".json") eqn:Hsuf; [|by exists []].
  apply String.eqb_eq in Hsuf.
  destruct (Py.int (Py.stem name)) as [ts0|] eqn:Hint; [|by exists []].
  case_decide as Hdom; [by exists []|].
  destruct Hs as [[Hs|[Hs|[Hs|(manifest & Hload & Hs)]]]|(ts & [= <-] & Hin)];
    try done.
  - rewrite Hs. eexists. split; [done|]. by repeat constructor.
  - rewrite Hload. destruct Hs as [-> | ->];
      (eexists; split; [done|]; by repeat constructor).
Qed.

Lemma scan_settles d tmpdir names st st' tr :
  scan d tmpdir names st = (st', tr, None) -> Forall (settled d st') names.
Proof.
  revert st st' tr.
  induction names as [|name rest IH]; intros st st' tr; simpl; [by constructor|].
  destruct (scan_entry d tmpdir name st) as [[st1 tr1] [e|]] eqn:Hone; [done|].
  destruct (scan d tmpdir rest st1) as [[st2 tr2] r2] eqn:Hscan.
  intros [= <- <- ->]. constructor; [|by eapply IH].
  eapply settled_mono; [|by eapply scan_entry_settles].
  eapply (scan_preserves (fun s => manifest_by_ts st1 ⊆ manifest_by_ts s));
    [|done|done].
  intros ? ? ? ? ? Hentry Hsub. etrans; [done|]. by eapply scan_entry_grows.
Qed.

Lemma scan_settled d tmpdir names st :
  Forall (settled d st) names ->
  exists tr, scan d tmpdir names st = (st, tr, None) /\ Forall is_log tr.
Proof.
  induction 1 as [|name rest Hname _ (tr & IH & Hlogs)]; simpl.
  - by exists [].
  - destruct (settled_skip d tmpdir name st Hname) as (tr1 & -> & Hlogs1).
    rewrite IH. exists (tr1 ++ tr). split; [done|]. by apply Forall_app.
Qed.

(** *** Registrations and the jobs before them *)

Lemma registers_after_app (J : list event -> Z -> Prop) a b :
  (forall x tr1 ts0, J tr1 ts0 -> J (x ++ tr1) ts0) ->
  registers_after J a -> registers_after J b -> registers_after J (a ++ b).
Proof.
  intros Hext Ha Hb tr1 ts0 ep tr2 Heq.
  destruct (split_app _ _ _ _ _ Heq) as [[x [-> ->]]|[x [-> ->]]].
  - by eapply Ha.
  - apply Hext. by eapply Hb.
Qed.

Lemma registers_after_quiet (J : list event -> Z -> Prop) tr :
  registrations tr = [] -> registers_after J tr.
Proof.
  intros Hq tr1 ts0 ep tr2 ->.
  rewrite registrations_app in Hq. simpl in Hq.
  by apply app_eq_nil in Hq as [_ ?].
Qed.

Lemma registers_after_impl (J J' : list event -> Z -> Prop) tr :
  (forall tr1 ts0, J tr1 ts0 -> J' tr1 ts0) ->
  registers_after J tr -> registers_after J' tr.
Proof. intros Himpl HJ tr1 ts0 ep tr2 Heq. apply Himpl. by eapply HJ. Qed.

Lemma entry_jobs_before_ext d tmpdir names x tr1 ts0 :
  entry_jobs_before d tmpdir names tr1 ts0 ->
  entry_jobs_before d tmpdir names (x ++ tr1) ts0.
Proof.
  intros (name & children & pre & Hin & Hsuf & Hint & Hzip & ->).
  exists name, children, (x ++ pre). by rewrite (assoc app).
Qed.

Lemma entry_jobs_before_mono d tmpdir names names' tr1 ts0 :
  names ⊆ names' ->
  entry_jobs_before d tmpdir names tr1 ts0 ->
  entry_jobs_before d tmpdir names' tr1 ts0.
Proof.
  intros Hsub (name & children & pre & Hin & Hrest).
  exists name, children, pre. split; [by apply Hsub|done].
Qed.

Lemma after_its_jobs_ext env x tr1 ts0 :
  after_its_jobs env tr1 ts0 -> after_its_jobs env (x ++ tr1) ts0.
Proof.
  intros (d & tmpdir & Hin & HJ). exists d, tmpdir. split; [done|].
  by apply entry_jobs_before_ext.
Qed.

Lemma entry_registers_after d tmpdir name st st' tr r :
  entry_outcome d tmpdir name st st' tr r ->
  registers_after (entry_jobs_before d tmpdir [name]) tr.
Proof.
  destruct 1 as [tr Hlogs|e|ts0 manifest epoch ts ets children Hsuf Hint].
  - apply registers_after_quiet. by apply registrations_logs.
  - by apply registers_after_quiet.
  - intros tr1 ts1 ep tr2 Heq.
    destruct (split_app _ _ _ _ _ Heq) as [[x [Hput _]]|[x [-> Hreg]]].
    + exfalso.
      assert (Hin : EvRegister ts1 ep
                      ∈ map (fun j => EvPut (Some j))
                          (upload_jobs tmpdir (Py.stem name) ts0 children)).
      { rewrite Hput. apply elem_of_app. right. by left. }
      by apply list_elem_of_fmap in Hin as (j & ? & _).
    + destruct x as [|y x]; simpl in Hreg.
      * injection Hreg as <- <- <-. rewrite app_nil_r.
        exists name, children, []. repeat split; try done. by left.
      * injection Hreg as _ Hreg. by destruct x.
Qed.

Lemma scan_registers_after d tmpdir names st st' tr r :
  scan d tmpdir names st = (st', tr, r) ->
  registers_after (entry_jobs_before d tmpdir names) tr.
Proof.
  revert st st' tr r.
  induction names as [|name rest IH]; intros st st' tr r; simpl.
  - intros [= <- <- <-]. by apply registers_after_quiet.
  - pose proof (scan_entry_outcome d tmpdir name st) as Hout.
    destruct (scan_entry d tmpdir name st) as [[st1 tr1] [e|]].
    + intros [= <- <- <-].
      eapply registers_after_impl; [|by eapply entry_registers_after].
      intros tr0 ts0. apply entry_jobs_before_mono, head_subseteq.
    + destruct (scan d tmpdir rest st1) as [[st2 tr2] r2] eqn:Hscan.
      intros [= <- <- <-]. apply registers_after_app.
      * intros x tr0 ts0. apply entry_jobs_before_ext.
      * eapply registers_after_impl; [|by eapply entry_registers_after].
        intros tr0 ts0. apply entry_jobs_before_mono, head_subseteq.
      * eapply registers_after_impl; [|by eapply IH].
        intros tr0 ts0. apply entry_jobs_before_mono, tail_subseteq.
Qed.

Lemma cycle_registers_after args d tmpdir st st1 tr c :
  cycle args d tmpdir st = (st1, tr, c) ->
  registers_after (after_its_jobs [(d, tmpdir)]) tr.
Proof.
  intros Heq. pose proof (cycle_cases args d tmpdir st) as Hc.
  rewrite Heq in Hc. destruct Hc as (scan_tr & r & Hscan & Hc).
  assert (Hgo : forall tail, registrations tail = [] ->
    registers_after (after_its_jobs [(d, tmpdir)])
      (prologue args tmpdir ++ scan_tr ++ tail)).
  { intros tail Htail.
    apply registers_after_app; [apply after_its_jobs_ext| |].
    { by apply registers_after_quiet. }
    apply registers_after_app; [apply after_its_jobs_ext| |].
    - eapply registers_after_impl; [|by eapply scan_registers_after].
      intros tr0 ts0 HJ. exists d, tmpdir. split; [by left|done].
    - by apply registers_after_quiet. }
  destruct c as [| |e].
  - destruct Hc as (_ & e & _ & ->). by apply Hgo.
  - destruct Hc as (_ & _ & ->). by apply Hgo.
  - destruct Hc as (_ & ->). by apply Hgo.
Qed.

Lemma after_its_jobs_mono env env' tr1 ts0 :
  env ⊆ env' -> after_its_jobs env tr1 ts0 -> after_its_jobs env' tr1 ts0.
Proof.
  intros Hsub (d & tmpdir & Hin & HJ). exists d, tmpdir.
  split; [by apply Hsub|done].
Qed.

Lemma run_registers_after args env st st1 tr r :
  run args env st = (st1, tr, r) ->
  registers_after (after_its_jobs env) tr.
Proof.
  revert st st1 tr r.
  induction env as [|[d tmpdir] env IH]; intros st st1 tr r; simpl.
  - intros [= <- <- <-]. by apply registers_after_quiet.
  - destruct (cycle args d tmpdir st) as [[st2 tr2] c] eqn:Hcycle.
    pose proof (cycle_registers_after _ _ _ _ _ _ _ Hcycle) as Hc.
    assert (Hc' : registers_after (after_its_jobs ((d, tmpdir) :: env)) tr2).
    { eapply registers_after_impl; [|done].
      intros tr0 ts0. apply after_its_jobs_mono, head_subseteq. }
    destruct (run args env st2) as [[st3 tr3] r3] eqn:Hrun.
    assert (Hgo : (st3, tr2 ++ tr3, r3) = (st1, tr, r) ->
                  registers_after (after_its_jobs ((d, tmpdir) :: env)) tr).
    { intros [= <- <- <-].
      apply registers_after_app; [apply after_its_jobs_ext|done|].
      eapply registers_after_impl; [|by eapply IH].
      intros tr0 ts0. apply after_its_jobs_mono, tail_subseteq. }
    destruct c; [done|done|].
    by intros [= <- <- <-].
Qed.

(** *** The claims on the cycle *)

(** C3.  The index that an iteration writes lists exactly the timestamps
    held under the greatest epoch of the Epoch Index, as strings, in strictly
    ascending numeric order, hence without duplicates; and along a run of
    the process, each index written lists exactly the timestamps registered
    so far under the greatest epoch registered so far. *)
Theorem published_index_lists_max_epoch :
  (forall args d tmpdir st st1 tr c path content,
      cycle args d tmpdir st = (st1, tr, c) ->
      EvWrite path content ∈ tr ->
      exists e l,
        max_epoch (timestamps_by_epoch st1) = Some e
        /\ e ∈ dom (timestamps_by_epoch st1)
        /\ (forall e', e' ∈ dom (timestamps_by_epoch st1) -> (e' <= e)%Z)
        /\ content = map Py.str l
        /\ StronglySorted Z.lt l
        /\ (forall t,
               t ∈ l <-> t ∈ default ∅ (timestamps_by_epoch st1 !! e))
        /\ NoDup content)
  /\ (forall args env st tr r tr1 path content tr2,
         run args env empty_store = (st, tr, r) ->
         tr = tr1 ++ EvWrite path content :: tr2 ->
         index_of tr1 content).
Proof.
  split.
  - intros args d tmpdir st st1 tr c path content Heq Hin.
    pose proof (cycle_cases args d tmpdir st) as Hc.
    rewrite Heq in Hc. destruct Hc as (scan_tr & r & Hscan & Hc).
    assert (Hscan_quiet : EvWrite path content ∉ scan_tr).
    { intros Hw. pose proof (scan_events _ _ _ _ _ _ _ Hscan) as Hall.
      rewrite Forall_forall in Hall. by apply Hall in Hw. }
    assert (Hpro : EvWrite path content ∉ prologue args tmpdir).
    { unfold prologue. rewrite !elem_of_cons, elem_of_nil. naive_solver. }
    assert (Hfin : EvWrite path content ∉ finally tmpdir).
    { unfold finally. rewrite !elem_of_cons, elem_of_nil. naive_solver. }
    destruct c as [| |e].
    + destruct Hc as (_ & e & Hmax & ->).
      pose proof (max_epoch_spec (timestamps_by_epoch st1)) as Hspec.
      rewrite Hmax in Hspec. destruct Hspec as [Hdom Hle].
      pose proof (index_list_spec (default ∅ (timestamps_by_epoch st1 !! e)))
        as (Hsorted & Hmem & Hnd).
      assert (Hc : content
                   = index_list (default ∅ (timestamps_by_epoch st1 !! e))).
      { rewrite !elem_of_app in Hin. unfold publish in Hin.
        rewrite !elem_of_cons, !elem_of_nil in Hin. naive_solver. }
      subst content.
      exists e, (merge_sort Z.le
                   (elements (default ∅ (timestamps_by_epoch st1 !! e)))).
      by split_and!.
    + destruct Hc as (_ & _ & ->). rewrite !elem_of_app in Hin. naive_solver.
    + destruct Hc as (_ & ->). rewrite !elem_of_app in Hin. naive_solver.
  - intros args env st tr r tr1 path content tr2 Hrun Heq.
    pose proof (run_indexes_ok _ _ _ _ _ _ [] Hrun agrees_empty) as Hok.
    by eapply Hok.
Qed.

(** C4.  Along a run of the process no timestamp is registered twice; an
    entry whose timestamp is already a key of the Manifest Store is passed
    over with no event and no change; no stored manifest is ever replaced;
    and an iteration over the entries of a directory that the previous
    iteration has scanned to the end, listed in any order, changes neither
    the Manifest Store nor the Epoch Index, registers nothing and enqueues
    no file of any manifest. *)
Theorem registered_at_most_once :
  (forall args env st tr r,
      run args env empty_store = (st, tr, r) -> NoDup (registered tr))
  /\ (forall d tmpdir name st ts0,
         Py.int (Py.stem name) = Some ts0 ->
         ts0 ∈ dom (manifest_by_ts st) ->
         scan_entry d tmpdir name st = (st, [], None))
  /\ (forall args env st st1 tr r,
         run args env st = (st1, tr, r) ->
         manifest_by_ts st ⊆ manifest_by_ts st1)
  /\ (forall args d tmpdir st st1 tr c names tmpdir',
         cycle args d tmpdir st = (st1, tr, c) ->
         (forall e, c <> Raised e) ->
         names ⊆ iterdir d ->
         exists tr' c',
           cycle args {| iterdir := names; load_json := load_json d;
                         extract_zip := extract_zip d |} tmpdir' st1
           = (st1, tr', c')
           /\ (forall e, c' <> Raised e)
           /\ registered tr' = []
           /\ forall j, EvPut (Some j) ∈ tr' ->
                 j.2 = "api/scores/list.json"
                 \/ j.2 = "api/scores/indexer-scores").
Proof.
  split; [|split; [|split]].
  - intros args env st tr r Hrun.
    by destruct (run_agrees _ _ _ _ _ _ [] Hrun agrees_empty) as (_ & _ & _ & ?).
  - intros d tmpdir name st ts0 Hint Hdom. unfold scan_entry.
    destruct (String.eqb (Py.suffix name) ".json"); [|done].
    rewrite Hint. by case_decide.
  - intros args env st st1 tr r Hrun.
    eapply (run_preserves (fun s => manifest_by_ts st ⊆ manifest_by_ts s));
      [|done|done].
    intros ? ? ? ? ? ? ? Hentry Hsub. etrans; [done|].
    by eapply scan_entry_grows.
  - intros args d tmpdir st st1 tr c names tmpdir' Heq Hc Hsub.
    pose proof (cycle_cases args d tmpdir st) as Hcases.
    rewrite Heq in Hcases. destruct Hcases as (scan_tr & r & Hscan & Hcases).
    assert (r = None) as ->.
    { destruct c; [by destruct Hcases..|]. by destruct (Hc e). }
    apply scan_settles in Hscan.
    assert (Hall : Forall (settled d st1) names).
    { rewrite Forall_forall in Hscan |- *. intros n Hn. by apply Hscan, Hsub. }
    set (d' := {| iterdir := names; load_json := load_json d;
                  extract_zip := extract_zip d |}).
    assert (Hall' : Forall (settled d' st1) names) by done.
    destruct (scan_settled d' tmpdir' names st1 Hall') as (logs & Hscan' & Hlogs).
    pose proof (cycle_cases args d' tmpdir' st1) as Hcases'.
    destruct (cycle args d' tmpdir' st1) as [[st2 tr'] c'].
    destruct Hcases' as (scan_tr' & r' & Hscan'' & Hcases').
    simpl in Hscan''. rewrite Hscan' in Hscan''.
    injection Hscan'' as <- <- <-.
    exists tr', c'. split; [done|].
    assert (Hnoput : forall j, EvPut (Some j) ∉ logs).
    { intros j Hj. rewrite Forall_forall in Hlogs. by apply Hlogs in Hj. }
    destruct c' as [| |e].
    + destruct Hcases' as (_ & e & _ & ->). split; [done|]. split.
      * unfold registered. rewrite !registrations_app.
        by rewrite (registrations_logs logs).
      * intros j. rewrite !elem_of_app. unfold prologue, publish, finally.
        rewrite !elem_of_cons, !elem_of_nil. specialize (Hnoput j).
        naive_solver.
    + destruct Hcases' as (_ & _ & ->). split; [done|]. split.
      * unfold registered. rewrite !registrations_app.
        by rewrite (registrations_logs logs).
      * intros j. rewrite !elem_of_app. unfold prologue, finally.
        rewrite !elem_of_cons, !elem_of_nil. specialize (Hnoput j).
        naive_solver.
    + by destruct Hcases' as [? _].
Qed.

(** C8.  Along a run of the process from the empty store, each registration
    of a timestamp comes immediately after the [put] of every job of its
    manifest, one for each regular file at the top of the extracted archive,
    and the timestamp was not registered before. *)
Theorem jobs_enqueued_before_registration :
  forall args env st tr r tr1 ts0 epoch tr2,
    run args env empty_store = (st, tr, r) ->
    tr = tr1 ++ EvRegister ts0 epoch :: tr2 ->
    after_its_jobs env tr1 ts0 /\ ts0 ∉ registered tr1.
Proof.
  intros args env st tr r tr1 ts0 epoch tr2 Hrun Heq. split.
  - by eapply (run_registers_after _ _ _ _ _ _ Hrun).
  - destruct (run_agrees _ _ _ _ _ _ [] Hrun agrees_empty) as (_ & _ & _ & Hnd).
    simpl in Hnd. subst tr. rewrite registered_app in Hnd.
    apply NoDup_app in Hnd as (_ & Hdisj & _).
    intros Hin. apply (Hdisj _ Hin). unfold registered. simpl. by left.
Qed.

(** C6.  Every manifest in the Manifest Store has an [issuanceDate] whose
    rounded milliseconds are its key; and when the scan reaches a manifest
    whose rounded milliseconds differ from the integer of its file name, the
    process ends there: nothing is registered for it, the pipeline is drained
    and the workspace removed, a critical message is logged last, and the
    exit status is 1. *)
Theorem mismatch_is_fatal :
  (forall args env st tr r,
      run args env empty_store = (st, tr, r) -> consistent st)
  /\ (forall args env1 d tmpdir env2 pre name post st1 tr1 st2 tr2
            ts0 manifest epoch ts ets,
         run args env1 empty_store = (st1, tr1, None) ->
         iterdir d = pre ++ name :: post ->
         scan d tmpdir pre st1 = (st2, tr2, None) ->
         Py.suffix name = ".json" ->
         Py.int (Py.stem name) = Some ts0 ->
         ts0 ∉ dom (manifest_by_ts st2) ->
         load_json d name = Loaded manifest ->
         manifest_dates manifest = inr (epoch, ts, ets) ->
         timestamp_ms ts <> ts0 ->
         main args (env1 ++ (d, tmpdir) :: env2)
         = (st2,
            tr1 ++ (prologue args tmpdir ++ tr2 ++ finally tmpdir)
            ++ [EvLog Critical "mmspd-explorer-uploader finished abnormally"],
            Some 1%Z)).
Proof.
  split.
  - intros args env st tr r Hrun.
    eapply (run_preserves consistent); [|done|].
    + intros. by eapply scan_entry_consistent.
    + intros k m. unfold empty_store. simpl. by rewrite lookup_empty.
  - intros args env1 d tmpdir env2 pre name post st1 tr1 st2 tr2
      ts0 manifest epoch ts ets Hrun Hdir Hpre Hsuf Hint Hfresh Hload Hdates
      Hts.
    assert (Hentry : scan_entry d tmpdir name st2
                     = (st2, [], Some AssertionError)).
    { unfold scan_entry. rewrite Hsuf. simpl. rewrite Hint.
      case_decide; [done|]. rewrite Hload, Hdates.
      apply Z.eqb_neq in Hts. by rewrite Hts. }
    assert (Hscan : scan d tmpdir (iterdir d) st1
                    = (st2, tr2, Some AssertionError)).
    { rewrite Hdir, scan_app, Hpre. simpl. rewrite Hentry.
      by rewrite app_nil_r. }
    unfold main. rewrite run_app, Hrun. simpl. unfold cycle. rewrite Hscan.
    by rewrite <- (assoc app).
Qed.

(** *** The jobs of one manifest *)

Lemma child_job_inv tmpdir stem ts0 c j :
  child_job tmpdir stem ts0 c = Some j <->
  exists n,
    c = XFile n
    /\ j = (tmpdir +:+ "/" +:+ stem +:+ "/" +:+ n,
            "files/" +:+ Py.str ts0 +:+ "/" +:+ stem +:+ "/" +:+ n).
Proof.
  destruct c as [n|n cs]; simpl; unfold Py.joinpath; split.
  - intros [= <-]. by exists n.
  - by intros (n' & [= <-] & ->).
  - done.
  - by intros (n' & ? & _).
Qed.

Lemma upload_jobs_elem tmpdir stem ts0 children j :
  j ∈ upload_jobs tmpdir stem ts0 children <->
  exists n,
    XFile n ∈ children
    /\ j = (tmpdir +:+ "/" +:+ stem +:+ "/" +:+ n,
            "files/" +:+ Py.str ts0 +:+ "/" +:+ stem +:+ "/" +:+ n).
Proof.
  unfold upload_jobs. rewrite list_elem_of_omap. split.
  - intros (c & Hin & Hjob). apply child_job_inv in Hjob as (n & -> & ->).
    by exists n.
  - intros (n & Hin & ->). exists (XFile n). split; [done|].
    apply child_job_inv. by exists n.
Qed.

Lemma upload_jobs_NoDup tmpdir stem ts0 children :
  NoDup (xname <$> children) ->
  NoDup (upload_jobs tmpdir stem ts0 children).
Proof.
  unfold upload_jobs.
  induction children as [|c rest IH]; simpl; [constructor|].
  intros [Hc Hrest]%NoDup_cons. specialize (IH Hrest).
  destruct (child_job tmpdir stem ts0 c) as [j|] eqn:Hjob; [|done].
  apply NoDup_cons. split; [|done].
  intros Hin. apply Hc.
  apply child_job_inv in Hjob as (n & -> & ->).
  apply (upload_jobs_elem tmpdir stem ts0 rest) in Hin as (n' & Hin & Heq).
  injection Heq as Heq _.
  do 4 apply (inj (String.append _)) in Heq. subst n'.
  apply list_elem_of_fmap. by exists (XFile n).
Qed.

Lemma entry_jobs d tmpdir name st st' tr ts0 epoch :
  scan_entry d tmpdir name st = (st', tr, None) ->
  EvRegister ts0 epoch ∈ tr ->
  exists children,
    Py.int (Py.stem name) = Some ts0
    /\ extract_zip d (Py.with_suffix name ".zip") = Some children
    /\ tr = map (fun j => EvPut (Some j))
                (upload_jobs tmpdir (Py.stem name) ts0 children)
            ++ [EvRegister ts0 epoch].
Proof.
  intros Heq Hin. pose proof (scan_entry_outcome d tmpdir name st) as Hout.
  rewrite Heq in Hout. inversion Hout as [tr' Hlogs| |ts1 m ep ts ets children];
    subst.
  - rewrite Forall_forall in Hlogs. by apply Hlogs in Hin.
  - apply elem_of_app in Hin as [Hin|Hin].
    + by apply list_elem_of_fmap in Hin as (j & ? & _).
    + apply list_elem_of_singleton in Hin. injection Hin as -> ->.
      by exists children.
Qed.

(** What an uncaught failure of the archive does to the loop body. *)
Lemma archive_failure_raises d tmpdir name st ts0 manifest epoch ts ets :
  Py.suffix name = ".json" ->
  Py.int (Py.stem name) = Some ts0 ->
  ts0 ∉ dom (manifest_by_ts st) ->
  load_json d name = Loaded manifest ->
  manifest_dates manifest = inr (epoch, ts, ets) ->
  timestamp_ms ts = ts0 ->
  extract_zip d (Py.with_suffix name ".zip") = None ->
  forall rest,
    scan d tmpdir (name :: rest) st = (st, [], Some ArchiveError).
Proof.
  intros Hsuf Hint Hfresh Hload Hdates Hts Hzip rest. simpl.
  unfold scan_entry. rewrite Hsuf. simpl. rewrite Hint.
  case_decide; [done|]. rewrite Hload, Hdates.
  apply Z.eqb_eq in Hts. by rewrite Hts, Hzip.
Qed.

(** An iteration that finds the Epoch Index empty does not sleep. *)
Lemma continue_skips_sleep args d tmpdir st st1 tr c :
  cycle args d tmpdir st = (st1, tr, c) ->
  timestamps_by_epoch st1 = ∅ ->
  (c = Continued \/ exists e, c = Raised e)
  /\ forall s, EvSleep s ∉ tr.
Proof.
  intros Heq Hempty. pose proof (cycle_cases args d tmpdir st) as Hc.
  rewrite Heq in Hc. destruct Hc as (scan_tr & r & Hscan & Hc).
  assert (Hquiet : forall s, EvSleep s ∉ scan_tr).
  { intros s Hs. pose proof (scan_events _ _ _ _ _ _ _ Hscan) as Hall.
    rewrite Forall_forall in Hall. by apply Hall in Hs. }
  assert (Hno : forall s,
            EvSleep s ∉ prologue args tmpdir ++ scan_tr ++ finally tmpdir).
  { intros s. rewrite !elem_of_app. unfold prologue, finally.
    rewrite !elem_of_cons, !elem_of_nil. specialize (Hquiet s). naive_solver. }
  destruct c as [| |e].
  - destruct Hc as (_ & e & Hmax & _).
    pose proof (max_epoch_spec (timestamps_by_epoch st1)) as Hspec.
    rewrite Hmax, Hempty in Hspec. destruct Hspec as [Hdom _].
    by rewrite dom_empty in Hdom.
  - destruct Hc as (_ & _ & ->). split; [by left|done].
  - destruct Hc as (_ & ->). split; [right; by exists e|done].
Qed.

End WithPlatform.

End UploaderFacts.

(** ** The upload pipeline *)

Module PipelineFacts.
Import Pipeline.

(** *** The steps, rule by rule *)

Lemma weight_insert (ws : list worker) (i : nat) (w w' : worker) :
  ws !! i = Some w ->
  sum_list (map weight (<[i := w']> ws)) + weight w
  = sum_list (map weight ws) + weight w'.
Proof.
  revert i. induction ws as [|x ws IH]; intros [|i]; simpl; try done.
  - intros [= ->]. lia.
  - intros Hi. specialize (IH i Hi). lia.
Qed.

Lemma step_steps (a : action) (p p' : pipeline) :
  step a p = Some p' -> steps p a p'.
Proof.
  unfold step, upload_to_s3. destruct a as [|i|i o|i].
  - destruct (driver p) as [|x rest] eqn:Hd; [done|].
    destruct (full p) eqn:Hf; [done|]. intros [= <-]. by constructor.
  - destruct (workers p !! i) as [w|] eqn:Hw; [|done].
    destruct (queue p) as [|x q] eqn:Hq; [done|].
    destruct (at_ w) eqn:Hat; try done.
    destruct x as [j|]; intros [= <-]; by econstructor.
  - destruct (workers p !! i) as [w|] eqn:Hw; [|done].
    destruct (at_ w) as [|j| |] eqn:Hat; try done.
    destruct o; [| destruct (bucket w); [done|] |]; intros [= <-];
      econstructor; eauto.
  - destruct (workers p !! i) as [w|] eqn:Hw; [|done].
    destruct (full p) eqn:Hf; [done|].
    destruct (at_ w) eqn:Hat; try done.
    intros [= <-]. by constructor.
Qed.

(** *** Every run is finite *)

(** The weight of the worker put at [i], against the one it replaces. *)
Ltac reweigh w Hw Hat :=
  match goal with
  | |- context [<[_ := ?w']> (workers _)] =>
      let Hsum := fresh "Hsum" in
      let Hold := fresh "Hold" in
      pose proof (weight_insert _ _ _ w' Hw) as Hsum;
      eassert (Hold : weight w = _)
        by (unfold weight; rewrite Hat; simpl; reflexivity);
      rewrite Hold in Hsum;
      let b := eval cbv in (weight w') in
      change (weight w') with b in Hsum
  end.

Lemma step_measure (a : action) (p p' : pipeline) :
  step a p = Some p' -> measure p' < measure p.
Proof.
  intros Hstep. apply step_steps in Hstep. unfold measure.
  destruct Hstep as [x rest Hd Hf|i w j q Hw Hat Hq|i w q Hw Hat Hq
                    |i o w j b up fl Hw Hat Hup|i w Hw Hat Hf]; simpl.
  - rewrite Hd, length_app. simpl. lia.
  - rewrite Hq. simpl. reweigh w Hw Hat. lia.
  - rewrite Hq. simpl. reweigh w Hw Hat. lia.
  - reweigh w Hw Hat. lia.
  - reweigh w Hw Hat. rewrite length_app. simpl. lia.
Qed.

Lemma exec_measure (acts : list action) (p p' : pipeline) :
  exec acts p = Some p' -> length acts + measure p' <= measure p.
Proof.
  revert p. induction acts as [|a acts IH]; intros p; simpl.
  - intros [= ->]. lia.
  - destruct (step a p) as [p1|] eqn:Hstep; [|done].
    intros Hexec. apply IH in Hexec. apply step_measure in Hstep. lia.
Qed.

(** *** The queue stays within its capacity *)

Lemma full_false (p : pipeline) :
  full p = false ->
  (maxsize p <= 0)%Z \/ (Z.of_nat (length (queue p)) < maxsize p)%Z.
Proof. unfold full. destruct (Z.leb_spec (maxsize p) 0); [by left|]. lia. Qed.

Lemma empty_not_full (p : pipeline) : queue p = [] -> full p = false.
Proof.
  unfold full. intros ->. destruct (Z.leb_spec (maxsize p) 0); [done|].
  simpl. apply Z.leb_gt. lia.
Qed.

Lemma steps_maxsize (a : action) (p p' : pipeline) :
  steps p a p' -> maxsize p' = maxsize p.
Proof. by destruct 1. Qed.

Lemma steps_bounded (a : action) (p p' : pipeline) :
  steps p a p' -> bounded p -> bounded p'.
Proof.
  unfold bounded.
  destruct 1 as [x rest Hd Hf|i w j q Hw Hat Hq|i w q Hw Hat Hq| |i w Hw Hat Hf];
    simpl; intros Hb Hpos; specialize (Hb Hpos).
  - apply full_false in Hf. rewrite length_app. simpl. lia.
  - rewrite Hq in Hb. simpl in Hb. lia.
  - rewrite Hq in Hb. simpl in Hb. lia.
  - done.
  - apply full_false in Hf. rewrite length_app. simpl. lia.
Qed.

Lemma exec_invariant (I : pipeline -> Prop) :
  (forall a p p', steps p a p' -> I p -> I p') ->
  forall acts p p', exec acts p = Some p' -> I p -> I p'.
Proof.
  intros Hstep acts. induction acts as [|a acts IH]; intros p p'; simpl.
  - by intros [= ->].
  - destruct (step a p) as [p1|] eqn:Hs; [|done].
    intros Hexec HI. eapply IH; [done|].
    eapply Hstep; [|done]. by apply step_steps.
Qed.

Lemma exec_maxsize (acts : list action) (p p' : pipeline) :
  exec acts p = Some p' -> maxsize p' = maxsize p.
Proof.
  intros Hexec.
  eapply (exec_invariant (fun q => maxsize q = maxsize p)); [|done|done].
  intros a q q' Hs <-. by eapply steps_maxsize.
Qed.

(** *** Where the sentinel is *)

Lemma idle_not_putting (w : worker) : idle w -> at_ w <> Putting.
Proof. intros [[Hat|[j Hat]] _]; by rewrite Hat. Qed.

Lemma gone_not_putting (w : worker) : gone w -> at_ w <> Putting.
Proof. intros [Hat _]. by rewrite Hat. Qed.

Lemma gone_not_getting (w : worker) : gone w -> at_ w <> Getting.
Proof. intros [Hat _]. by rewrite Hat. Qed.

Lemma gone_not_uploading (w : worker) j : gone w -> at_ w <> Uploading j.
Proof. intros [Hat _]. by rewrite Hat. Qed.

Lemma sentinel_first (q d : list (option (string * string))) js :
  (None :: q) ++ d = map Some js ++ [None] -> q = [] /\ d = [] /\ js = [].
Proof.
  destruct js as [|j js]; simpl; [|done].
  intros [= Heq]. by apply app_eq_nil in Heq as [-> ->].
Qed.

Lemma job_first (q d : list (option (string * string))) j js :
  (Some j :: q) ++ d = map Some js ++ [None] ->
  exists js', js = j :: js' /\ q ++ d = map Some js' ++ [None].
Proof.
  destruct js as [|j' js]; simpl; [done|].
  intros [= -> Heq]. by exists js.
Qed.

Lemma phase_step (a : action) (p p' : pipeline) :
  steps p a p' -> phase p -> phase p'.
Proof.
  destruct 1 as [x rest Hd Hf|i w j q Hw Hat Hq|i w q Hw Hat Hq
                |i o w j b up fl Hw Hat Hup|i w Hw Hat Hf].
  - (* the driver puts *)
    intros [js Hqd Hidle|i w Hq Hd'|Hq Hd']; [|congruence..].
    apply (sentinel_ahead _ js); [|done]. simpl.
    rewrite <- (assoc app). simpl. by rewrite <- Hd.
  - (* a worker takes a job *)
    intros [js Hqd Hidle|i0 w0 Hq'|Hq']; [|congruence..].
    rewrite Hq in Hqd. apply job_first in Hqd as (js' & -> & Hqd).
    apply (sentinel_ahead _ js'); [done|]. simpl.
    apply Forall_insert; [done|].
    rewrite Forall_lookup in Hidle. destruct (Hidle _ _ Hw) as (_ & ? & ?).
    split; [right; by exists j|done].
  - (* a worker takes the sentinel *)
    assert (Hi : i < length (workers p)) by by eapply lookup_lt_Some.
    intros [js Hqd Hidle|i0 w0 Hq'|Hq' Hd' Hall Hex]; [| congruence |].
    + rewrite Hq in Hqd. apply sentinel_first in Hqd as (-> & Hd' & ->).
      rewrite Forall_lookup in Hidle.
      destruct (Hidle _ _ Hw) as (_ & Hseen & Hreput).
      eapply (sentinel_held _ i); simpl; [done|done| | |].
      * by apply list_lookup_insert_eq.
      * split; [done|]. simpl. by rewrite Hseen, Hreput.
      * intros k w' Hk. rewrite list_lookup_insert_ne by done.
        intros Hw'. left. by eapply Hidle.
    + rewrite Hq in Hq'. injection Hq' as ->.
      rewrite Forall_lookup in Hall.
      destruct (Hall _ _ Hw) as [(_ & Hseen & Hreput)|Hgone];
        [|by apply gone_not_getting in Hgone].
      eapply (sentinel_held _ i); simpl; [done|done| | |].
      * by apply list_lookup_insert_eq.
      * split; [done|]. simpl. by rewrite Hseen, Hreput.
      * intros k w' Hk. rewrite list_lookup_insert_ne by done.
        intros Hw'. by eapply Hall.
  - (* an upload ends *)
    assert (Hi : i < length (workers p)) by by eapply lookup_lt_Some.
    intros [js Hqd Hidle|i0 w0 Hq' Hd' Hw0 Hhold Hothers|Hq' Hd' Hall Hex].
    + apply (sentinel_ahead _ js); [done|]. simpl.
      apply Forall_insert; [done|].
      rewrite Forall_lookup in Hidle. destruct (Hidle _ _ Hw) as (_ & ? & ?).
      split; [by left|done].
    + assert (Hne : i <> i0).
      { intros ->. rewrite Hw in Hw0. injection Hw0 as ->.
        destruct Hhold as [Hp _]. congruence. }
      eapply (sentinel_held _ i0); simpl; [done|done| |done|].
      * by rewrite list_lookup_insert_ne.
      * intros k w' Hk. destruct (decide (k = i)) as [->|Hki].
        -- rewrite list_lookup_insert_eq by done. intros [= <-].
           destruct (Hothers _ _ Hne Hw) as [(_ & ? & ?)|Hgone];
             [|by apply gone_not_uploading with (j := j) in Hgone].
           left. split; [by left|done].
        -- rewrite list_lookup_insert_ne by done. by apply Hothers.
    + apply sentinel_back; simpl; [done|done| |].
      * apply Forall_insert; [done|].
        rewrite Forall_lookup in Hall.
        destruct (Hall _ _ Hw) as [(_ & ? & ?)|Hgone];
          [|by apply gone_not_uploading with (j := j) in Hgone].
        left. split; [by left|done].
      * apply Exists_exists in Hex as (w0 & Hin & Hgone).
        apply list_elem_of_lookup in Hin as [k Hk].
        apply Exists_exists. exists w0. split; [|done].
        apply list_elem_of_lookup. exists k.
        rewrite list_lookup_insert_ne; [done|].
        intros ->. rewrite Hw in Hk. injection Hk as ->.
        by apply gone_not_uploading with (j := j) in Hgone.
  - (* a worker puts the sentinel back *)
    assert (Hi : i < length (workers p)) by by eapply lookup_lt_Some.
    intros [js Hqd Hidle|i0 w0 Hq' Hd' Hw0 Hhold Hothers|Hq' Hd' Hall Hex].
    + rewrite Forall_lookup in Hidle.
      by destruct (idle_not_putting _ (Hidle _ _ Hw)).
    + destruct (decide (i = i0)) as [->|Hne].
      2:{ destruct (Hothers _ _ Hne Hw) as [Hidle|Hgone].
          - by destruct (idle_not_putting _ Hidle).
          - by destruct (gone_not_putting _ Hgone). }
      rewrite Hw in Hw0. injection Hw0 as <-.
      destruct Hhold as (_ & Hseen & Hreput).
      assert (Hgone : gone {| at_ := Returned; bucket := bucket w;
                              seen := seen w; reput := S (reput w) |}).
      { split; [done|]. simpl. by rewrite Hseen, Hreput. }
      apply sentinel_back; simpl; [by rewrite Hq'|done| |].
      * apply Forall_lookup. intros k w' Hk.
        destruct (decide (k = i0)) as [->|Hki].
        -- rewrite list_lookup_insert_eq in Hk by done.
           injection Hk as <-. by right.
        -- rewrite list_lookup_insert_ne in Hk by done. by eapply Hothers.
      * apply Exists_exists. eexists. split; [|exact Hgone].
        apply list_elem_of_lookup. exists i0.
        by apply list_lookup_insert_eq.
    + rewrite Forall_lookup in Hall. destruct (Hall _ _ Hw) as [Hidle|Hgone].
      * by destruct (idle_not_putting _ Hidle).
      * by destruct (gone_not_putting _ Hgone).
Qed.

(** *** Every job is attempted once *)

Lemma flight_insert (ws : list worker) (i : nat) (w w' : worker) :
  ws !! i = Some w ->
  (<[i := w']> ws ≫= flight) ++ flight w ≡ₚ (ws ≫= flight) ++ flight w'.
Proof.
  revert i. induction ws as [|x ws IH]; intros [|i] Hi; try done.
  - injection Hi as ->.
    change (<[0 := w']> (w :: ws)) with (w' :: ws).
    rewrite !bind_cons. solve_Permutation.
  - specialize (IH i Hi).
    change (<[S i := w']> (x :: ws)) with (x :: <[i := w']> ws).
    rewrite !bind_cons, <- !(assoc app). by rewrite IH.
Qed.

Lemma jobs_of_app (a b : list (option (string * string))) :
  jobs_of (a ++ b) = jobs_of a ++ jobs_of b.
Proof. apply omap_app. Qed.

Lemma accounted_step js (a : action) (p p' : pipeline) :
  steps p a p' -> accounted js p -> accounted js p'.
Proof.
  unfold accounted, attempted, pending.
  destruct 1 as [x rest Hd Hf|i w j q Hw Hat Hq|i w q Hw Hat Hq
                |i o w j b up fl Hw Hat Hup|i w Hw Hat Hf]; simpl; intros <-.
  - by replace ((queue p ++ [x]) ++ rest) with (queue p ++ driver p)
      by (by rewrite Hd, <- (assoc app)).
  - rewrite Hq. simpl.
    match goal with
    | |- context [<[i := ?w']> (workers p)] =>
        pose proof (flight_insert _ _ _ w' Hw) as Hfl
    end.
    unfold flight at 2 3 in Hfl. rewrite Hat in Hfl. simpl in Hfl.
    rewrite app_nil_r in Hfl. rewrite Hfl. solve_Permutation.
  - rewrite Hq. simpl.
    match goal with
    | |- context [<[i := ?w']> (workers p)] =>
        pose proof (flight_insert _ _ _ w' Hw) as Hfl
    end.
    unfold flight at 2 3 in Hfl. rewrite Hat in Hfl. simpl in Hfl.
    rewrite !app_nil_r in Hfl. by rewrite Hfl.
  - match goal with
    | |- context [<[i := ?w']> (workers p)] =>
        pose proof (flight_insert _ _ _ w' Hw) as Hfl
    end.
    unfold flight at 2 3 in Hfl. rewrite Hat in Hfl. simpl in Hfl.
    rewrite app_nil_r in Hfl. rewrite <- Hfl.
    destruct Hup as [[-> ->]|[-> ->]]; solve_Permutation.
  - match goal with
    | |- context [<[i := ?w']> (workers p)] =>
        pose proof (flight_insert _ _ _ w' Hw) as Hfl
    end.
    unfold flight at 2 3 in Hfl. rewrite Hat in Hfl. simpl in Hfl.
    rewrite !app_nil_r in Hfl. rewrite Hfl.
    rewrite !jobs_of_app. simpl. by rewrite app_nil_r.
Qed.

Lemma start_accounted n js :
  accounted js (start n (map Some js ++ [None])).
Proof.
  unfold accounted, attempted, pending, start. simpl.
  assert (Hfl : replicate (Z.to_nat n) fresh ≫= flight = []).
  { induction (Z.to_nat n) as [|k IH]; [done|].
    change (replicate (S k) fresh) with (fresh :: replicate k fresh).
    by rewrite bind_cons, IH. }
  rewrite Hfl, app_nil_r, jobs_of_app. simpl. rewrite app_nil_r.
  unfold jobs_of. induction js as [|j js IH]; [done|]. simpl. by rewrite IH.
Qed.

Lemma start_phase n js : phase (start n (map Some js ++ [None])).
Proof.
  apply (sentinel_ahead _ js); [done|]. simpl.
  apply Forall_replicate. split; [by left|done].
Qed.

Lemma start_bounded n items : bounded (start n items).
Proof. unfold bounded, start. simpl. lia. Qed.

(** *** When nothing can run *)

Lemma upload_enabled (p : pipeline) i w j :
  workers p !! i = Some w -> at_ w = Uploading j ->
  is_Some (step (Upload i Uploaded) p).
Proof. intros Hw Hat. unfold step, upload_to_s3. by rewrite Hw, Hat. Qed.

Lemma get_enabled (p : pipeline) i w x q :
  workers p !! i = Some w -> at_ w = Getting -> queue p = x :: q ->
  is_Some (step (Get i) p).
Proof.
  intros Hw Hat Hq. unfold step, upload_to_s3. rewrite Hw, Hq, Hat.
  by destruct x.
Qed.

Lemma reput_enabled (p : pipeline) i w :
  workers p !! i = Some w -> at_ w = Putting -> full p = false ->
  is_Some (step (Reput i) p).
Proof. intros Hw Hat Hf. unfold step, upload_to_s3. by rewrite Hw, Hf, Hat. Qed.

Lemma put_enabled (p : pipeline) x rest :
  driver p = x :: rest -> full p = false -> is_Some (step DriverPut p).
Proof. intros Hd Hf. unfold step. by rewrite Hd, Hf. Qed.

Lemma quiescent_gone (p : pipeline) :
  phase p -> quiescent p ->
  Forall gone (workers p)
  /\ (workers p <> [] -> queue p = [None] /\ driver p = []).
Proof.
  intros Hphase Hq.
  assert (Hstuck : forall a, ~ is_Some (step a p)).
  { intros a [p' Hp']. by rewrite Hq in Hp'. }
  assert (Hno_upload : forall i w j,
            workers p !! i = Some w -> at_ w <> Uploading j).
  { intros i w j Hw Hat. by eapply Hstuck, upload_enabled. }
  assert (Hno_get : forall i w,
            workers p !! i = Some w -> at_ w = Getting -> queue p = []).
  { intros i w Hw Hat. destruct (queue p) as [|x q] eqn:Hqueue; [done|].
    exfalso. by eapply Hstuck, get_enabled. }
  destruct Hphase as [js Hqd Hidle|i w Hq' Hd' Hw Hhold _|Hq' Hd' Hall Hex].
  - destruct (workers p) as [|w ws] eqn:Hws; [by split|]. exfalso.
    apply Forall_cons in Hidle as [[[Hat|[j Hat]] _] _].
    2:{ by eapply (Hno_upload 0 w j). }
    assert (Hempty : queue p = []).
    { by eapply (Hno_get 0 w). }
    rewrite Hempty in Hqd. simpl in Hqd.
    destruct (driver p) as [|x rest] eqn:Hd; [by destruct js|].
    eapply Hstuck, put_enabled; [done|]. by apply empty_not_full.
  - exfalso. destruct Hhold as [Hat _].
    eapply Hstuck, reput_enabled; [done..|]. by apply empty_not_full.
  - split; [|done]. rewrite Forall_lookup in Hall |- *.
    intros i w Hw. destruct (Hall _ _ Hw) as [[[Hat|[j Hat]] _]|Hgone];
      [| |done].
    + specialize (Hno_get _ _ Hw Hat). congruence.
    + by destruct (Hno_upload _ _ j Hw).
Qed.

Lemma gone_no_flight (ws : list worker) :
  Forall gone ws -> ws ≫= flight = [].
Proof.
  induction 1 as [|w ws [Hat _] _ IH]; [done|].
  rewrite bind_cons, IH. unfold flight. by rewrite Hat.
Qed.

(** *** One schedule that runs to the end *)

Lemma first_step_none (cands : list action) (p : pipeline) :
  first_step cands p = None -> Forall (fun a => step a p = None) cands.
Proof.
  induction cands as [|a cands IH]; simpl; [by constructor|].
  destruct (step a p) eqn:Hs; [done|]. intros Hrest.
  constructor; [done|]. by apply IH.
Qed.

Lemma first_step_some (cands : list action) (p p' : pipeline) :
  first_step cands p = Some p' -> exists a, step a p = Some p'.
Proof.
  induction cands as [|a cands IH]; simpl; [done|].
  destruct (step a p) eqn:Hs; [|done]. intros [= <-]. by exists a.
Qed.

Lemma upload_outcomes (p : pipeline) i o :
  step (Upload i Uploaded) p = None -> step (Upload i o) p = None.
Proof.
  unfold step, upload_to_s3. destruct (workers p !! i) as [w|]; [|done].
  by destruct (at_ w).
Qed.

Lemma no_worker (p : pipeline) i a :
  length (workers p) <= i ->
  a = Get i \/ (exists o, a = Upload i o) \/ a = Reput i ->
  step a p = None.
Proof.
  intros Hi Ha. unfold step.
  destruct Ha as [->|[[o ->]| ->]]; by rewrite (lookup_ge_None_2 (workers p) i).
Qed.

Lemma candidates_complete (p : pipeline) :
  first_step (candidates p) p = None -> quiescent p.
Proof.
  intros Hnone. apply first_step_none in Hnone.
  rewrite Forall_forall in Hnone.
  assert (Hin : forall i, i < length (workers p) ->
            step (Reput i) p = None /\ step (Upload i Uploaded) p = None
            /\ step (Get i) p = None).
  { intros i Hi.
    assert (Hcand : forall a, a ∈ [Reput i; Upload i Uploaded; Get i] ->
                              a ∈ candidates p).
    { intros a Ha. unfold candidates. right. apply list_elem_of_bind.
      exists i. split; [done|]. apply elem_of_seq. lia. }
    repeat split; apply Hnone, Hcand; set_solver. }
  intros a.
  assert (Hcase : a = DriverPut
                  \/ exists i, a = Get i \/ (exists o, a = Upload i o)
                                \/ a = Reput i).
  { destruct a as [|i|i o|i]; [by left|right; exists i..]; eauto. }
  destruct Hcase as [->|[i Ha]]; [apply Hnone; by left|].
  destruct (decide (i < length (workers p))) as [Hi|Hi].
  - destruct (Hin i Hi) as (Hre & Hup & Hget).
    destruct Ha as [->|[[o ->]| ->]]; [done| |done].
    by apply upload_outcomes.
  - apply (no_worker p i); [lia|done].
Qed.

Lemma drain_succ (fuel : nat) (p : pipeline) :
  drain (S fuel) p =
  match first_step (candidates p) p with
  | Some p' => drain fuel p'
  | None => p
  end.
Proof. reflexivity. Qed.

Lemma exec_cons (a : action) (acts : list action) (p : pipeline) :
  exec (a :: acts) p = step a p ≫= exec acts.
Proof. reflexivity. Qed.

Lemma drain_reaches (fuel : nat) (p : pipeline) :
  exists acts, exec acts p = Some (drain fuel p).
Proof.
  revert p. induction fuel as [|fuel IH]; intros p.
  - by exists [].
  - rewrite drain_succ.
    destruct (first_step (candidates p) p) as [p'|] eqn:Hfirst.
    + apply first_step_some in Hfirst as [a Ha].
      destruct (IH p') as [acts Hacts]. exists (a :: acts).
      by rewrite exec_cons, Ha.
    + by exists [].
Qed.

Lemma drain_quiescent (fuel : nat) (p : pipeline) :
  measure p <= fuel -> quiescent (drain fuel p).
Proof.
  revert p. induction fuel as [|fuel IH]; intros p Hm.
  - apply candidates_complete.
    destruct (first_step (candidates p) p) as [p'|] eqn:Hfirst; [|done].
    apply first_step_some in Hfirst as [a Ha].
    apply step_measure in Ha. lia.
  - rewrite drain_succ.
    destruct (first_step (candidates p) p) as [p'|] eqn:Hfirst.
    + apply first_step_some in Hfirst as [a Ha].
      apply step_measure in Ha. apply IH. lia.
    + by apply candidates_complete.
Qed.

Lemma steps_workers_length (a : action) (p p' : pipeline) :
  steps p a p' -> length (workers p') = length (workers p).
Proof. destruct 1; simpl; by rewrite ?length_insert. Qed.

(** What reaches the bucket was put by the driver. *)
Lemma uploaded_were_put n js acts p :
  exec acts (start n (map Some js ++ [None])) = Some p -> uploaded p ⊆ js.
Proof.
  intros Hexec.
  assert (Hacc : accounted js p).
  { eapply (exec_invariant (accounted js)); [|done|apply start_accounted].
    intros a q q'. apply accounted_step. }
  unfold accounted, attempted in Hacc. intros j Hj. rewrite <- Hacc.
  rewrite !elem_of_app. by do 2 left.
Qed.

(** Each iteration of [run] puts its jobs and then one sentinel. *)
Lemma cycle_puts `{Uploader.Platform} args d tmpdir st st1 tr c :
  Uploader.cycle args d tmpdir st = (st1, tr, c) ->
  exists js, puts tr = map Some js ++ [None].
Proof.
  intros Heq. pose proof (UploaderFacts.cycle_cases args d tmpdir st) as Hc.
  rewrite Heq in Hc. destruct Hc as (scan_tr & r & Hscan & Hc).
  assert (Hjobs : exists js, puts scan_tr = map Some js).
  { pose proof (UploaderFacts.scan_events _ _ _ _ _ _ _ Hscan) as Hall.
    clear -Hall. induction Hall as [|e tr He _ [js IH]]; [by exists []|].
    destruct e as [| | | |[j|]| | | | |]; try done; simpl.
    - by exists js.
    - exists (j :: js). unfold puts in *. simpl. by rewrite IH.
    - by exists js. }
  destruct Hjobs as [js Hjs]. unfold puts in *.
  destruct c as [| |e].
  - destruct Hc as (_ & e & _ & ->). eexists (js ++ [_; _]).
    rewrite !omap_app, Hjs. simpl. by rewrite map_app, <- (assoc app).
  - destruct Hc as (_ & _ & ->). exists js.
    rewrite !omap_app, Hjs. by simpl.
  - destruct Hc as (_ & ->). exists js.
    rewrite !omap_app, Hjs. by simpl.
Qed.

(** *** The claims on the pipeline *)

(** C7.  With the sentinel put once, after the jobs, into the queue of [n]
    workers: every run of the pipeline is finite; when nothing more can run,
    each of the [n] workers has taken the sentinel exactly once, put it back
    exactly once and returned, and (for a positive [n]) the queue holds the
    sentinel alone and every job has been attempted exactly once; and from
    every state that a run reaches, some run goes on to such an end. *)
Theorem sentinel_stops_every_worker :
  forall n js acts p,
    exec acts (start n (map Some js ++ [None])) = Some p ->
    length acts <= measure (start n (map Some js ++ [None]))
    /\ (quiescent p ->
        length (workers p) = Z.to_nat n
        /\ Forall gone (workers p)
        /\ ((0 < n)%Z ->
            queue p = [None] /\ driver p = [] /\ attempted p ≡ₚ js))
    /\ exists more,
        exec more p = Some (drain (measure p) p)
        /\ quiescent (drain (measure p) p).
Proof.
  intros n js acts p Hexec. split; [|split].
  - apply exec_measure in Hexec. lia.
  - intros Hq.
    assert (Hphase : phase p).
    { eapply (exec_invariant phase); [|done|apply start_phase].
      intros a q q'. apply phase_step. }
    assert (Hacc : accounted js p).
    { eapply (exec_invariant (accounted js)); [|done|apply start_accounted].
      intros a q q'. apply accounted_step. }
    assert (Hlen : length (workers p) = Z.to_nat n).
    { erewrite (exec_invariant
                  (fun q => length (workers q) = Z.to_nat n)); [done| |done|].
      - intros a q q' Hs <-. by eapply steps_workers_length.
      - simpl. apply length_replicate. }
    destruct (quiescent_gone p Hphase Hq) as [Hgone Hend].
    split; [done|]. split; [done|]. intros Hn.
    destruct Hend as [Hqueue Hdriver].
    { intros Hnil. rewrite Hnil in Hlen. simpl in Hlen. lia. }
    split; [done|]. split; [done|].
    unfold accounted, pending in Hacc.
    rewrite Hqueue, Hdriver, (gone_no_flight _ Hgone) in Hacc.
    simpl in Hacc. by rewrite app_nil_r in Hacc.
  - destruct (drain_reaches (measure p) p) as [more Hmore].
    exists more. split; [done|]. by apply drain_quiescent.
Qed.

(** C9, amended.  The queue is created with [maxsize] equal to four times
    the number of workers.  When that number is positive, the queue never
    holds more items than that; and when it holds that many, the driver's
    [put] cannot run, and the only step that makes room is a worker's [get].
    When the number is zero or negative the queue is never full. *)
Theorem queue_capacity :
  forall n items acts p,
    exec acts (start n items) = Some p ->
    maxsize p = (4 * n)%Z
    /\ ((0 < n)%Z ->
        (Z.of_nat (length (queue p)) <= 4 * n)%Z
        /\ (Z.of_nat (length (queue p)) = (4 * n)%Z ->
            step DriverPut p = None
            /\ forall a p',
                step a p = Some p' ->
                (Z.of_nat (length (queue p')) < 4 * n)%Z ->
                exists i, a = Get i))
    /\ ((n <= 0)%Z -> full p = false).
Proof.
  intros n items acts p Hexec.
  assert (Hmax : maxsize p = (4 * n)%Z).
  { rewrite (exec_maxsize _ _ _ Hexec). simpl. lia. }
  split; [done|]. split.
  - intros Hn.
    assert (Hb : bounded p).
    { eapply (exec_invariant bounded); [|done|apply start_bounded].
      intros a q q'. apply steps_bounded. }
    unfold bounded in Hb. rewrite Hmax in Hb. split; [lia|].
    intros Hfull.
    assert (Hf : full p = true).
    { unfold full. rewrite Hmax.
      destruct (Z.leb_spec (4 * n) 0); [lia|]. apply Z.leb_le. lia. }
    split.
    + simpl. rewrite Hf. by destruct (driver p).
    + intros a p' Hstep Hroom. apply step_steps in Hstep.
      destruct Hstep as [x rest Hd Hf'|i w j q Hw Hat Hq|i w q Hw Hat Hq
                        |i o w j b up fl Hw Hat Hup|i w Hw Hat Hf'];
        simpl in Hroom; try congruence; try (by eexists); lia.
  - intros Hn. unfold full. rewrite Hmax.
    destruct (Z.leb_spec (4 * n) 0); [done|lia].
Qed.

End PipelineFacts.

(** ** The scratch-workspace deleter *)

Module FsFacts.
Import Fs.

(** *** Path resolution *)

Lemma walk_cons b t follow cur c rest :
  walk (S b) t follow cur (c :: rest) =
  match t !! (cur ++ [c]) with
  | None => inl ENOENT
  | Some Dir => walk (S b) t follow (cur ++ [c]) rest
  | Some File =>
      match rest with
      | [] => inr (cur ++ [c])
      | _ => inl ENOTDIR
      end
  | Some (Symlink target) =>
      match rest, follow with
      | [], false => inr (cur ++ [c])
      | _, _ => walk b t follow [] (target ++ rest)
      end
  end.
Proof. reflexivity. Qed.

(** What resolves in a file system resolves alike in a larger one. *)
Lemma walk_sub (b : nat) (t' t : gmap (list string) inode) follow cur rest q :
  t' ⊆ t ->
  walk b t' follow cur rest = inr q -> walk b t follow cur rest = inr q.
Proof.
  intros Hsub. revert cur rest.
  induction b as [|b IHb]; intros cur rest; [done|].
  revert cur. induction rest as [|c rest IHrest]; intros cur; [done|].
  rewrite !walk_cons.
  destruct (t' !! (cur ++ [c])) as [x|] eqn:Hx; [|done].
  rewrite (lookup_weaken _ _ _ _ Hx Hsub).
  destruct x as [| |target]; [done|apply IHrest|].
  destruct rest, follow; try done; apply IHb.
Qed.

(** With a directory found for [rest], the entry [c] of that directory is
    what [rest ++ [c]] names when the last link is not followed. *)
Lemma walk_snoc (b : nat) (t : gmap (list string) inode) cur rest d c :
  walk b t true cur rest = inr d ->
  entry t d = Some Dir ->
  walk b t false cur (rest ++ [c]) =
  match t !! (d ++ [c]) with
  | None => inl ENOENT
  | Some _ => inr (d ++ [c])
  end.
Proof.
  revert cur rest. induction b as [|b IHb]; intros cur rest; [done|].
  revert cur. induction rest as [|x rest IHrest]; intros cur.
  - intros [= <-] _. simpl app. rewrite walk_cons.
    destruct (t !! (cur ++ [c])) as [[| |target]|]; done.
  - rewrite walk_cons. intros Hwalk Hd.
    change ((x :: rest) ++ [c]) with (x :: (rest ++ [c])).
    rewrite walk_cons.
    destruct (t !! (cur ++ [x])) as [[| |target]|] eqn:Hx; [| | |done].
    + exfalso. destruct rest; [|done]. injection Hwalk as <-.
      unfold entry in Hd. destruct (cur ++ [x]) eqn:Heq; [by destruct cur|].
      congruence.
    + by apply IHrest.
    + assert (Hgo : walk b t true [] (target ++ rest) = inr d).
      { by destruct rest. }
      rewrite <- (IHb _ _ Hgo Hd), <- (assoc app).
      by destruct rest.
Qed.

(** Following the last link or not gives the same location, unless the path
    ends in a link. *)
Lemma walk_follow (b : nat) (t : gmap (list string) inode) cur rest d :
  walk b t true cur rest = inr d ->
  walk b t false cur rest = inr d
  \/ exists q target,
      walk b t false cur rest = inr q /\ entry t q = Some (Symlink target).
Proof.
  revert cur rest. induction b as [|b IHb]; intros cur rest; [done|].
  revert cur. induction rest as [|x rest IHrest]; intros cur.
  - intros [= <-]. by left.
  - rewrite !walk_cons.
    destruct (t !! (cur ++ [x])) as [[| |target]|] eqn:Hx; [| | |done].
    + intros Hw. by left.
    + apply IHrest.
    + destruct rest as [|y rest].
      * intros _. right. exists (cur ++ [x]), target. split; [done|].
        unfold entry. destruct (cur ++ [x]) eqn:Heq; [by destruct cur|].
        congruence.
      * apply IHb.
Qed.

(** *** Directories *)

Lemma child_name_spec (d k : list string) (c : string) :
  child_name d k = Some c <-> k = d ++ [c].
Proof.
  unfold child_name. split.
  - destruct (drop (length d) k) as [|c' [|? ?]] eqn:Hdrop; try done.
    case_decide as Htake; [|done]. intros [= ->].
    by rewrite <- (take_drop (length d) k), Htake, Hdrop.
  - intros ->. rewrite drop_app_length, take_app_length.
    by case_decide.
Qed.

Lemma children_spec (t : gmap (list string) inode) (d : list string) c :
  c ∈ children t d <-> is_Some (t !! (d ++ [c])).
Proof.
  unfold children. rewrite list_elem_of_omap. split.
  - intros (k & Hk & Hname). apply child_name_spec in Hname as ->.
    by apply elem_of_dom, elem_of_elements.
  - intros Hsome. exists (d ++ [c]). split.
    + by apply elem_of_elements, elem_of_dom.
    + by apply child_name_spec.
Qed.

Lemma height_bound (t : gmap (list string) inode) (k : list string) :
  is_Some (t !! k) -> length k <= height t.
Proof.
  intros Hk. apply elem_of_dom, elem_of_elements in Hk.
  unfold height. induction (elements (dom t)) as [|x l IH].
  - by apply elem_of_nil in Hk.
  - rewrite fmap_cons. cbn [foldr].
    apply elem_of_cons in Hk as [->|Hk]; [lia|].
    specialize (IH Hk). lia.
Qed.

Lemma height_sub (t' t : gmap (list string) inode) :
  t' ⊆ t -> forall k, is_Some (t' !! k) -> length k <= height t.
Proof.
  intros Hsub k [x Hx]. apply height_bound.
  exists x. by eapply lookup_weaken.
Qed.

(** *** What the primitives change *)

Lemma below_refl (d : list string) (t : gmap (list string) inode) :
  below d t t.
Proof. split; [done|]. by intros k []. Qed.

Lemma below_trans (d : list string) (t t1 t2 : gmap (list string) inode) :
  below d t t1 -> below d t1 t2 -> below d t t2.
Proof.
  intros [Hs1 H1] [Hs2 H2]. split; [by etrans|].
  intros k Hk. destruct (decide (t2 !! k = t1 !! k)) as [Heq|Hne].
  - apply H1. congruence.
  - by apply H2.
Qed.

Lemma below_delete (d : list string) (t : gmap (list string) inode) :
  below d t (delete d t).
Proof.
  split; [apply delete_subseteq|]. intros k Hk.
  destruct (decide (d = k)) as [->|Hne]; [done|].
  by rewrite lookup_delete_ne in Hk.
Qed.

Lemma is_dir_true (t : gmap (list string) inode) (p : list string) :
  is_dir t p = true ->
  exists d, resolve t true p = inr d /\ entry t d = Some Dir.
Proof.
  unfold is_dir. destruct (resolve t true p) as [e|d]; [done|].
  destruct (entry t d) as [[| |?]|] eqn:Hd; try done. by exists d.
Qed.

Lemma is_symlink_false (t : gmap (list string) inode)
  (p q x : list string) :
  is_symlink t p = false ->
  resolve t false p = inr q -> entry t q = Some (Symlink x) -> False.
Proof. unfold is_symlink. intros Hs Hres Hq. by rewrite Hres, Hq in Hs. Qed.

(** In the first branch of [rm_rf] the path names a directory itself. *)
Lemma real_directory (t : gmap (list string) inode) (p : list string) :
  is_dir t p && negb (is_symlink t p) = true ->
  exists d,
    resolve t true p = inr d /\ resolve t false p = inr d
    /\ entry t d = Some Dir.
Proof.
  intros [Hdir Hsym]%andb_prop. apply negb_true_iff in Hsym.
  apply is_dir_true in Hdir as (d & Hres & Hd). exists d.
  split; [done|]. split; [|done].
  destruct (walk_follow _ _ _ _ _ Hres) as [?|(q & x & Hq & Hx)]; [done|].
  by destruct (is_symlink_false _ _ _ _ Hsym Hq Hx).
Qed.

(** A child of a real directory lies directly under it. *)
Lemma child_location (t' t : gmap (list string) inode)
  (p d : list string) (c : string) (q : list string) :
  t' ⊆ t ->
  resolve t true p = inr d ->
  entry t d = Some Dir ->
  resolve t' false (p ++ [c]) = inr q ->
  q = d ++ [c].
Proof.
  unfold resolve. intros Hsub Hres Hd Hq.
  apply (walk_sub _ _ _ _ _ _ _ Hsub) in Hq.
  rewrite (walk_snoc _ _ _ _ _ c Hres Hd) in Hq.
  destruct (t !! (d ++ [c])); [|done]. by injection Hq.
Qed.

Lemma unlink_missing_ok_spares (t : gmap (list string) inode)
  (p : list string) (t' : gmap (list string) inode) :
  left_by (unlink_missing_ok t p) = Some t' -> spares t p t'.
Proof.
  unfold unlink_missing_ok, unlink, spares.
  destruct (resolve t false p) as [e|q] eqn:Hres.
  { destruct e; intros [= <-]; (split; [done|by intros k []]). }
  destruct (entry t q) as [[| |x]|];
    intros [= <-]; try (split; [done|by intros k []]).
  - destruct (below_delete q t) as [Hs Hb]. split; [done|].
    intros k Hk. exists q. split; [done|]. by apply Hb.
  - destruct (below_delete q t) as [Hs Hb]. split; [done|].
    intros k Hk. exists q. split; [done|]. by apply Hb.
Qed.

(** *** [rm_rf] stays under its argument *)

Lemma rm_rf_succ (f : nat) (t : gmap (list string) inode) (p : list string) :
  rm_rf (S f) t p =
  if is_dir t p && negb (is_symlink t p) then
    match iterdir t p with
    | inl e => Raised e t
    | inr kids =>
        match each (rm_rf f) kids t with
        | Done t1 =>
            match rmdir t1 p with
            | inr t2 => Done t2
            | inl e => Raised e t1
            end
        | r => r
        end
    end
  else unlink_missing_ok t p.
Proof. reflexivity. Qed.

Lemma each_below
  (rm : gmap (list string) inode -> list string -> outcome)
  (p d : list string) (t : gmap (list string) inode) :
  (forall t1 c t',
      t1 ⊆ t -> left_by (rm t1 (p ++ [c])) = Some t' -> below d t1 t') ->
  forall kids t1 t',
    Forall (fun k => exists c, k = p ++ [c]) kids ->
    below d t t1 ->
    left_by (each rm kids t1) = Some t' ->
    below d t t'.
Proof.
  intros Hrm kids. induction kids as [|k kids IH]; intros t1 t' Hkids Ht1.
  - by intros [= <-].
  - apply Forall_cons in Hkids as [[c ->] Hkids]. simpl.
    pose proof (Hrm t1 c) as Hone. destruct Ht1 as [Hsub Hb].
    destruct (rm t1 (p ++ [c])) as [t2|e t2|]; simpl; [| |done].
    + apply IH; [done|]. eapply below_trans; [by split|]. by apply Hone.
    + intros [= <-]. eapply below_trans; [by split|]. by apply Hone.
Qed.

Lemma iterdir_children (t : gmap (list string) inode) (p d : list string) :
  resolve t true p = inr d ->
  entry t d = Some Dir ->
  iterdir t p = inr (map (fun c => p ++ [c]) (children t d)).
Proof. unfold iterdir. by intros -> ->. Qed.

Lemma kids_shape (p : list string) (cs : list string) :
  Forall (fun k => exists c, k = p ++ [c]) (map (fun c => p ++ [c]) cs).
Proof. apply Forall_forall. intros k (c & -> & _)%list_elem_of_fmap. by exists c. Qed.

Lemma rm_rf_spares (fuel : nat) :
  forall (t : gmap (list string) inode) p t',
    left_by (rm_rf fuel t p) = Some t' -> spares t p t'.
Proof.
  induction fuel as [|f IH]; intros t p t'; [done|].
  rewrite rm_rf_succ.
  destruct (is_dir t p && negb (is_symlink t p)) eqn:Hbranch;
    [|apply unlink_missing_ok_spares].
  destruct (real_directory _ _ Hbranch) as (d & Htrue & Hfalse & Hd).
  rewrite (iterdir_children _ _ _ Htrue Hd).
  assert (Hgoal : below d t t' -> spares t p t').
  { intros [Hs Hb]. split; [done|]. intros k Hk. exists d.
    split; [done|]. by apply Hb. }
  assert (Hloop : forall t1,
            left_by (each (rm_rf f) (map (fun c => p ++ [c]) (children t d)) t)
            = Some t1 -> below d t t1).
  { intros t1. apply (each_below _ p d t); [|apply kids_shape|apply below_refl].
    intros t2 c t3 Hsub Hleft. destruct (IH _ _ _ Hleft) as [Hs Hch].
    split; [done|]. intros k Hk. destruct (Hch k Hk) as (q & Hq & Hpre).
    rewrite (child_location _ _ _ _ _ _ Hsub Htrue Hd Hq) in Hpre.
    etrans; [|done]. by apply prefix_app_r. }
  destruct (each (rm_rf f) (map (fun c => p ++ [c]) (children t d)) t)
    as [t1|e t1|] eqn:Heach; [| |done].
  - specialize (Hloop t1 eq_refl). unfold rmdir.
    destruct (resolve t1 false p) as [e|q] eqn:Hq.
    { intros [= <-]. by apply Hgoal. }
    assert (q = d) as ->.
    { unfold resolve in *. destruct Hloop as [Hsub _].
      apply (walk_sub _ _ _ _ _ _ _ Hsub) in Hq. congruence. }
    destruct (entry t1 d) as [[| |x]|]; try (intros [= <-]; by apply Hgoal).
    destruct d as [|c0 d0]; [intros [= <-]; by apply Hgoal|].
    destruct (children t1 (c0 :: d0)); intros [= <-]; [|by apply Hgoal].
    apply Hgoal. eapply below_trans; [done|]. apply below_delete.
  - intros [= <-]. by apply Hgoal, Hloop.
Qed.

(** *** Enough fuel *)

Lemma each_fuel
  (rm : gmap (list string) inode -> list string -> outcome)
  (kids : list (list string)) (t : gmap (list string) inode) :
  (forall t1 k, k ∈ kids -> t1 ⊆ t -> rm t1 k <> OutOfFuel) ->
  (forall t1 k t2, rm t1 k = Done t2 -> t2 ⊆ t1) ->
  forall t1, t1 ⊆ t -> each rm kids t1 <> OutOfFuel.
Proof.
  intros Hfuel Hsub. induction kids as [|k kids IH]; intros t1 Ht1; [done|].
  simpl. pose proof (Hfuel t1 k ltac:(by left) Ht1) as Hk.
  destruct (rm t1 k) as [t2|e t2|] eqn:Hrm; [|done|done].
  apply IH.
  - intros t3 k' Hk'. apply Hfuel. by right.
  - etrans; [|done]. by eapply Hsub.
Qed.

Lemma rm_rf_fuel (fuel : nat) :
  forall (t0 t : gmap (list string) inode) p,
    t ⊆ t0 ->
    1 <= fuel ->
    (forall d, resolve t false p = inr d -> height t0 + 1 < fuel + length d) ->
    rm_rf fuel t p <> OutOfFuel.
Proof.
  induction fuel as [|f IH]; intros t0 t p Hsub Hpos Hdepth; [lia|].
  rewrite rm_rf_succ.
  destruct (is_dir t p && negb (is_symlink t p)) eqn:Hbranch.
  2:{ unfold unlink_missing_ok. destruct (unlink t p) as [[]|]; done. }
  destruct (real_directory _ _ Hbranch) as (d & Htrue & Hfalse & Hd).
  rewrite (iterdir_children _ _ _ Htrue Hd).
  assert (Hlen : length d <= height t0).
  { destruct d as [|c d]; [simpl; lia|]. apply (height_sub t t0 Hsub).
    simpl in Hd. by rewrite Hd. }
  specialize (Hdepth d Hfalse).
  assert (Hloop :
    each (rm_rf f) (map (fun c => p ++ [c]) (children t d)) t <> OutOfFuel).
  { apply (each_fuel _ _ t); [| |done].
    - intros t1 k (c & -> & _)%list_elem_of_fmap Ht1.
      apply (IH t0); [by etrans|lia|].
      intros q Hq. rewrite (child_location _ _ _ _ _ _ Ht1 Htrue Hd Hq).
      rewrite length_app. simpl. lia.
    - intros t1 k t2 Hrm.
      by destruct (rm_rf_spares f t1 k t2 ltac:(by rewrite Hrm)). }
  destruct (each (rm_rf f) (map (fun c => p ++ [c]) (children t d)) t)
    as [t1|e t1|]; [|done|done].
  by destruct (rmdir t1 p).
Qed.

(** *** Links and missing paths *)

Lemma rm_rf_symlink (f : nat) (t : gmap (list string) inode)
  (p q x : list string) :
  resolve t false p = inr q ->
  entry t q = Some (Symlink x) ->
  rm_rf (S f) t p = Done (delete q t).
Proof.
  intros Hres Hq. rewrite rm_rf_succ.
  assert (is_symlink t p = true) as ->.
  { unfold is_symlink. by rewrite Hres, Hq. }
  rewrite andb_false_r. unfold unlink_missing_ok, unlink.
  by rewrite Hres, Hq.
Qed.

Lemma rm_rf_missing (f : nat) (t : gmap (list string) inode)
  (p : list string) :
  resolve t false p = inl ENOENT -> rm_rf (S f) t p = Done t.
Proof.
  intros Hres. rewrite rm_rf_succ.
  assert (is_dir t p = false) as ->.
  { destruct (is_dir t p) eqn:Hdir; [|done].
    apply is_dir_true in Hdir as (d & Htrue & _).
    destruct (walk_follow _ _ _ _ _ Htrue) as [?|(q & x & ? & _)];
      unfold resolve in *; congruence. }
  simpl. unfold unlink_missing_ok, unlink. by rewrite Hres.
Qed.

(** C10.  [rm_rf] on a path that ends in a symbolic link removes that link
    and nothing else, whatever the link points at; whatever [rm_rf] does and
    however it ends, it only removes entries, and only at or below the
    location that its argument names without following a final link, so that
    everything elsewhere, the targets of links included, is as before; on a
    path with a missing component it returns and changes nothing; and the
    recursion is never deeper than the file system. *)
Theorem rm_rf_never_follows_links :
  forall (t : gmap (list string) inode) (p : list string),
    (forall q x f,
        resolve t false p = inr q ->
        entry t q = Some (Symlink x) ->
        rm_rf (S f) t p = Done (delete q t))
    /\ (forall fuel t',
           left_by (rm_rf fuel t p) = Some t' ->
           t' ⊆ t
           /\ forall k, t' !! k <> t !! k ->
                 exists d, resolve t false p = inr d /\ d `prefix_of` k)
    /\ (forall f, resolve t false p = inl ENOENT -> rm_rf (S f) t p = Done t)
    /\ (forall fuel, height t + 2 <= fuel -> rm_rf fuel t p <> OutOfFuel).
Proof.
  intros t p. split_and!.
  - intros q x f. apply rm_rf_symlink.
  - intros fuel t'. apply rm_rf_spares.
  - intros f. apply rm_rf_missing.
  - intros fuel Hfuel. apply (rm_rf_fuel fuel t t p); [done|lia|].
    intros d _. lia.
Qed.

End FsFacts.

(** ** The cycle and the pipeline on concrete inputs *)

Module Scenarios.
Import Uploader Examples.

Lemma triple_eta {A B C} (x : A * B * C) : x = (x.1.1, x.1.2, x.2).
Proof. by destruct x as [[? ?] ?]. Qed.

(** Evaluate the items that a concrete iteration puts. *)
Ltac eval_puts :=
  match goal with
  | |- context [Pipeline.puts ?t] =>
      let v := eval vm_compute in (Pipeline.puts t) in
      change (Pipeline.puts t) with v
  | H : context [Pipeline.puts ?t] |- _ =>
      let v := eval vm_compute in (Pipeline.puts t) in
      change (Pipeline.puts t) with v in H
  end.

(** What one iteration does on [one_file], from the empty store. *)
Example one_file_cycle :
  (cycle args one_file "/tmp/ws" empty_store).1.2
  = [EvLog Info "starting a run"; EvQueue 40; EvSpawn 10; EvMkdtemp "/tmp/ws";
     EvPut (Some ("/tmp/ws/1700000000000/a.dat",
                  "files/1700000000000/1700000000000/a.dat"));
     EvRegister 1700000000000 1699920000000000;
     EvWrite "/tmp/ws/list.json" ["1700000000000"];
     EvPut (Some ("/tmp/ws/list.json", "api/scores/list.json"));
     EvPut (Some ("/var/cache/indexer-scores.csv",
                  "api/scores/indexer-scores"));
     EvLog Info "finished a run"; EvPut None; EvGather;
     EvLog Info "all uploads finished"; EvRmRf "/tmp/ws"; EvSleep 10]
  /\ (cycle args one_file "/tmp/ws" empty_store).2 = Completed.
Proof. split; by vm_compute. Qed.

(** C1, as stated, fails.  For the directory with [1700000000000.json] and
    an archive holding only [a.dat], no job of the iteration has the key
    [files/1700000000000/a.dat], and no run of the pipeline uploads anything
    under that key; and a file below the top of the archive, such as
    [sub/b.dat], gets no job at all. *)
Lemma flat_key_counterexample :
  (forall path,
      Some (path, "files/1700000000000/a.dat")
      ∉ Pipeline.puts (cycle args one_file "/tmp/ws" empty_store).1.2)
  /\ (forall acts p path,
         Pipeline.exec acts
           (Pipeline.start 10
              (Pipeline.puts (cycle args one_file "/tmp/ws" empty_store).1.2))
         = Some p ->
         (path, "files/1700000000000/a.dat") ∉ Pipeline.uploaded p)
  /\ (forall key,
         Some ("/tmp/ws/1700000000000/sub/b.dat", key)
         ∉ Pipeline.puts (cycle args nested_file "/tmp/ws" empty_store).1.2).
Proof.
  split; [|split].
  - intros path. eval_puts.
    rewrite !elem_of_cons, elem_of_nil. naive_solver.
  - intros acts p path Hexec Hin. eval_puts.
    apply (PipelineFacts.uploaded_were_put 10
             [("/tmp/ws/1700000000000/a.dat",
               "files/1700000000000/1700000000000/a.dat");
              ("/tmp/ws/list.json", "api/scores/list.json");
              ("/var/cache/indexer-scores.csv", "api/scores/indexer-scores")])
      in Hexec.
    apply Hexec in Hin. revert Hin.
    rewrite !elem_of_cons, elem_of_nil. naive_solver.
  - intros key. eval_puts.
    rewrite !elem_of_cons, elem_of_nil. naive_solver.
Qed.

(** C1, amended.  When the loop body registers a manifest with timestamp
    [ts0], what it has put before are the jobs of the regular files at the
    top of the extracted archive, and nothing else: the file named [n] gives
    the local path [tmpdir/stem/n] and the key [files/ts0/stem/n], where
    [stem] is the stem of the manifest's file name; and files with distinct
    names give distinct jobs, one each.  For [1700000000000.json] and an
    archive holding [a.dat] the key is
    [files/1700000000000/1700000000000/a.dat], and with uploads that succeed
    the bucket receives that object, the index and the cache file. *)
Theorem top_level_files_become_jobs :
  (forall (PF : Platform) d tmpdir name st st' tr ts0 epoch,
      scan_entry d tmpdir name st = (st', tr, None) ->
      EvRegister ts0 epoch ∈ tr ->
      exists children,
        Py.int (Py.stem name) = Some ts0
        /\ extract_zip d (Py.with_suffix name ".zip") = Some children
        /\ tr = map (fun j => EvPut (Some j))
                    (upload_jobs tmpdir (Py.stem name) ts0 children)
                ++ [EvRegister ts0 epoch]
        /\ (forall j,
               j ∈ upload_jobs tmpdir (Py.stem name) ts0 children <->
               exists n,
                 XFile n ∈ children
                 /\ j = (tmpdir +:+ "/" +:+ Py.stem name +:+ "/" +:+ n,
                         "files/" +:+ Py.str ts0 +:+ "/" +:+ Py.stem name
                         +:+ "/" +:+ n))
        /\ (NoDup (xname <$> children) ->
            NoDup (upload_jobs tmpdir (Py.stem name) ts0 children)))
  /\ Pipeline.puts (cycle args one_file "/tmp/ws" empty_store).1.2
     = [Some ("/tmp/ws/1700000000000/a.dat",
              "files/1700000000000/1700000000000/a.dat");
        Some ("/tmp/ws/list.json", "api/scores/list.json");
        Some ("/var/cache/indexer-scores.csv", "api/scores/indexer-scores");
        None]
  /\ Pipeline.uploaded
       (Pipeline.drain 100
          (Pipeline.start 10
             (Pipeline.puts (cycle args one_file "/tmp/ws" empty_store).1.2)))
     = [("/tmp/ws/1700000000000/a.dat",
         "files/1700000000000/1700000000000/a.dat");
        ("/tmp/ws/list.json", "api/scores/list.json");
        ("/var/cache/indexer-scores.csv", "api/scores/indexer-scores")].
Proof.
  split; [|split; by vm_compute].
  intros PF d tmpdir name st st' tr ts0 epoch Heq Hin.
  destruct (UploaderFacts.entry_jobs _ _ _ _ _ _ _ _ Heq Hin)
    as (children & Hint & Hzip & Htr).
  exists children. split_and!; try done.
  - apply UploaderFacts.upload_jobs_elem.
  - apply UploaderFacts.upload_jobs_NoDup.
Qed.

Lemma top_level_files_become_jobs_witness :
  exists children,
    Py.int (Py.stem "1700000000000.json") = Some 1700000000000%Z
    /\ extract_zip one_file (Py.with_suffix "1700000000000.json" ".zip")
       = Some children
    /\ [EvPut (Some ("/tmp/ws/1700000000000/a.dat",
                     "files/1700000000000/1700000000000/a.dat"));
        EvRegister 1700000000000 1699920000000000]
       = map (fun j => EvPut (Some j))
             (upload_jobs "/tmp/ws" (Py.stem "1700000000000.json")
                1700000000000 children)
         ++ [EvRegister 1700000000000 1699920000000000]
    /\ (forall j,
           j ∈ upload_jobs "/tmp/ws" (Py.stem "1700000000000.json")
                 1700000000000 children <->
           exists n,
             XFile n ∈ children
             /\ j = ("/tmp/ws" +:+ "/" +:+ Py.stem "1700000000000.json"
                     +:+ "/" +:+ n,
                     "files/" +:+ Py.str 1700000000000 +:+ "/"
                     +:+ Py.stem "1700000000000.json" +:+ "/" +:+ n))
    /\ (NoDup (xname <$> children) ->
        NoDup (upload_jobs "/tmp/ws" (Py.stem "1700000000000.json")
                 1700000000000 children)).
Proof.
  apply (proj1 top_level_files_become_jobs platform one_file "/tmp/ws"
           "1700000000000.json" empty_store
           (scan_entry one_file "/tmp/ws" "1700000000000.json"
              empty_store).1.1).
  - by vm_compute.
  - right. left.
Defined.

(** C2, on the code.  With the archive of the first manifest missing, the
    iteration leaves the scan at that entry: the complete pair listed after
    it is neither enqueued nor registered, and the process ends with exit
    status 1 instead of going on to a second iteration.  That pair alone is
    registered without trouble; and when it is the first manifest that
    cannot be read, the scan does go on and registers the pair. *)
Theorem missing_archive_stops_the_scan :
  main args [(missing_archive, "/tmp/ws"); (one_file, "/tmp/ws2")]
  = (empty_store,
     [EvLog Info "starting a run"; EvQueue 40; EvSpawn 10; EvMkdtemp "/tmp/ws";
      EvPut None; EvGather; EvLog Info "all uploads finished";
      EvRmRf "/tmp/ws";
      EvLog Critical "mmspd-explorer-uploader finished abnormally"],
     Some 1%Z)
  /\ scan missing_archive "/tmp/ws" (iterdir missing_archive) empty_store
     = (empty_store, [], Some ArchiveError)
  /\ registered
       (scan missing_archive "/tmp/ws" ["1700000000000.json"]
          empty_store).1.2
     = [1700000000000%Z]
  /\ (cycle args unreadable_manifest "/tmp/ws" empty_store).2 = Completed
  /\ registered (cycle args unreadable_manifest "/tmp/ws" empty_store).1.2
     = [1700000000000%Z].
Proof. split_and!; by vm_compute. Qed.

(** C5, on the code.  With nothing ever registered, an iteration ends
    through [continue]: it puts the sentinel, waits for the workers and
    removes the workspace, and the next iteration starts at once; no
    [EvSleep] separates the two. *)
Theorem empty_store_never_sleeps :
  run args [(empty_dir, "/tmp/ws1"); (empty_dir, "/tmp/ws2")] empty_store
  = (empty_store,
     [EvLog Info "starting a run"; EvQueue 40; EvSpawn 10;
      EvMkdtemp "/tmp/ws1";
      EvPut None; EvGather; EvLog Info "all uploads finished";
      EvRmRf "/tmp/ws1";
      EvLog Info "starting a run"; EvQueue 40; EvSpawn 10;
      EvMkdtemp "/tmp/ws2";
      EvPut None; EvGather; EvLog Info "all uploads finished";
      EvRmRf "/tmp/ws2"],
     None)
  /\ (cycle args empty_dir "/tmp/ws1" empty_store).2 = Continued
  /\ (cycle args one_file "/tmp/ws" empty_store).2 = Completed
  /\ last (cycle args one_file "/tmp/ws" empty_store).1.2 = Some (EvSleep 10).
Proof. split_and!; by vm_compute. Qed.

(** *** The general claims at concrete inputs *)

Lemma published_index_witness :
  index_of
    [EvLog Info "starting a run"; EvQueue 40; EvSpawn 10; EvMkdtemp "/tmp/ws";
     EvPut (Some ("/tmp/ws/1700000000000/a.dat",
                  "files/1700000000000/1700000000000/a.dat"));
     EvRegister 1700000000000 1699920000000000]
    ["1700000000000"].
Proof.
  apply (proj2 UploaderFacts.published_index_lists_max_epoch
           args [(one_file, "/tmp/ws")]
           (run args [(one_file, "/tmp/ws")] empty_store).1.1
           (run args [(one_file, "/tmp/ws")] empty_store).1.2
           (run args [(one_file, "/tmp/ws")] empty_store).2
           _ "/tmp/ws/list.json" _
           [EvPut (Some ("/tmp/ws/list.json", "api/scores/list.json"));
            EvPut (Some ("/var/cache/indexer-scores.csv",
                         "api/scores/indexer-scores"));
            EvLog Info "finished a run"; EvPut None; EvGather;
            EvLog Info "all uploads finished"; EvRmRf "/tmp/ws";
            EvSleep 10]).
  - apply triple_eta.
  - by vm_compute.
Defined.

Lemma registered_at_most_once_witness :
  NoDup (registered
           (run args [(one_file, "/tmp/ws1"); (one_file, "/tmp/ws2")]
              empty_store).1.2)
  /\ exists tr' c',
      cycle args {| iterdir := ["1700000000000.zip"; "1700000000000.json"];
                    load_json := load_json one_file;
                    extract_zip := extract_zip one_file |} "/tmp/ws2"
        (cycle args one_file "/tmp/ws1" empty_store).1.1
      = ((cycle args one_file "/tmp/ws1" empty_store).1.1, tr', c')
      /\ (forall e, c' <> Raised e)
      /\ registered tr' = []
      /\ forall j, EvPut (Some j) ∈ tr' ->
            j.2 = "api/scores/list.json" \/ j.2 = "api/scores/indexer-scores".
Proof.
  split.
  - apply (proj1 UploaderFacts.registered_at_most_once args
             [(one_file, "/tmp/ws1"); (one_file, "/tmp/ws2")]
             (run args [(one_file, "/tmp/ws1"); (one_file, "/tmp/ws2")]
                empty_store).1.1 _
             (run args [(one_file, "/tmp/ws1"); (one_file, "/tmp/ws2")]
                empty_store).2).
    apply triple_eta.
  - apply (proj2 (proj2 (proj2 UploaderFacts.registered_at_most_once))
             args one_file "/tmp/ws1" empty_store _
             (cycle args one_file "/tmp/ws1" empty_store).1.2
             (cycle args one_file "/tmp/ws1" empty_store).2).
    + apply triple_eta.
    + by vm_compute.
    + intros name. simpl. rewrite !elem_of_cons. tauto.
Defined.

Lemma jobs_enqueued_before_registration_witness :
  after_its_jobs [(one_file, "/tmp/ws")]
    [EvLog Info "starting a run"; EvQueue 40; EvSpawn 10; EvMkdtemp "/tmp/ws";
     EvPut (Some ("/tmp/ws/1700000000000/a.dat",
                  "files/1700000000000/1700000000000/a.dat"))]
    1700000000000
  /\ 1700000000000%Z
     ∉ registered
         [EvLog Info "starting a run"; EvQueue 40; EvSpawn 10;
          EvMkdtemp "/tmp/ws";
          EvPut (Some ("/tmp/ws/1700000000000/a.dat",
                       "files/1700000000000/1700000000000/a.dat"))].
Proof.
  apply (UploaderFacts.jobs_enqueued_before_registration
           args [(one_file, "/tmp/ws")]
           (run args [(one_file, "/tmp/ws")] empty_store).1.1
           (run args [(one_file, "/tmp/ws")] empty_store).1.2
           (run args [(one_file, "/tmp/ws")] empty_store).2
           _ _ 1699920000000000%Z
           [EvWrite "/tmp/ws/list.json" ["1700000000000"];
            EvPut (Some ("/tmp/ws/list.json", "api/scores/list.json"));
            EvPut (Some ("/var/cache/indexer-scores.csv",
                         "api/scores/indexer-scores"));
            EvLog Info "finished a run"; EvPut None; EvGather;
            EvLog Info "all uploads finished"; EvRmRf "/tmp/ws";
            EvSleep 10]).
  - apply triple_eta.
  - by vm_compute.
Defined.

Lemma mismatch_is_fatal_witness :
  main args [(mismatched, "/tmp/ws")]
  = (empty_store,
     [] ++ (prologue args "/tmp/ws" ++ [] ++ finally "/tmp/ws")
     ++ [EvLog Critical "mmspd-explorer-uploader finished abnormally"],
     Some 1%Z).
Proof.
  apply (proj2 UploaderFacts.mismatch_is_fatal args [] mismatched "/tmp/ws" []
           [] "1699999999000.json"
           ["1699999999000.zip"; "1700000000000.json"; "1700000000000.zip"]
           empty_store [] empty_store [] 1699999999000%Z good_manifest
           1699920000000000%Z 1700000000000000%Z 1700000000000000%Z).
  - reflexivity.
  - reflexivity.
  - reflexivity.
  - by vm_compute.
  - by vm_compute.
  - simpl. rewrite dom_empty. apply not_elem_of_empty.
  - reflexivity.
  - by vm_compute.
  - by vm_compute.
Defined.

(** A name that [int()] refuses is no manifest for the loop.  With
    [\x1c12.json] listed first, the entry is passed over, although its dates
    do not give 12: the iteration goes on, registers the pair listed after
    it and publishes the index, and the process keeps running. *)
Example refused_name_is_passed_over :
  Py.int (Py.stem (String (ascii_of_nat 28) "12.json")) = None
  /\ scan_entry separator_name "/tmp/ws" (String (ascii_of_nat 28) "12.json")
       empty_store
     = (empty_store, [], None)
  /\ registrations (main args [(separator_name, "/tmp/ws")]).1.2
     = [(1700000000000, 1699920000000000)]%Z
  /\ (main args [(separator_name, "/tmp/ws")]).2 = None.
Proof. split_and!; by vm_compute. Qed.

(** [schedule] runs the two workers to the end. *)
Example schedule_drains :
  Pipeline.exec schedule (Pipeline.start 2 [Some index_job; None])
  = Some drained
  /\ Pipeline.quiescent drained.
Proof.
  split; [by vm_compute|].
  apply PipelineFacts.candidates_complete. by vm_compute.
Qed.

Lemma sentinel_stops_every_worker_witness :
  length schedule
  <= Pipeline.measure (Pipeline.start 2 (map Some [index_job] ++ [None]))
  /\ (Pipeline.quiescent drained ->
      length (Pipeline.workers drained) = Z.to_nat 2
      /\ Forall Pipeline.gone (Pipeline.workers drained)
      /\ ((0 < 2)%Z ->
          Pipeline.queue drained = [None]
          /\ Pipeline.driver drained = []
          /\ Pipeline.attempted drained ≡ₚ [index_job]))
  /\ exists more,
      Pipeline.exec more drained
      = Some (Pipeline.drain (Pipeline.measure drained) drained)
      /\ Pipeline.quiescent
           (Pipeline.drain (Pipeline.measure drained) drained).
Proof.
  apply (PipelineFacts.sentinel_stops_every_worker 2 [index_job] schedule
           drained).
  by vm_compute.
Defined.

(** C9, as stated, fails.  With no worker the queue is created with
    [maxsize] 0, which [asyncio] takes as unbounded: the driver's first [put]
    runs, and the queue then holds one job, more than four times zero. *)
Lemma unbounded_queue_counterexample :
  Pipeline.exec [Pipeline.DriverPut] (Pipeline.start 0 [Some index_job; None])
  = Some {| Pipeline.maxsize := 4 * 0;
            Pipeline.queue := [Some index_job];
            Pipeline.driver := [None];
            Pipeline.workers := [];
            Pipeline.uploaded := [];
            Pipeline.failed := [] |}
  /\ ~ (Z.of_nat (length [Some index_job]) <= 4 * 0)%Z.
Proof. split; [by vm_compute|]. simpl. lia. Qed.

Lemma queue_capacity_witness :
  Pipeline.maxsize drained = (4 * 2)%Z
  /\ ((0 < 2)%Z ->
      (Z.of_nat (length (Pipeline.queue drained)) <= 4 * 2)%Z
      /\ (Z.of_nat (length (Pipeline.queue drained)) = (4 * 2)%Z ->
          Pipeline.step Pipeline.DriverPut drained = None
          /\ forall a p',
              Pipeline.step a drained = Some p' ->
              (Z.of_nat (length (Pipeline.queue p')) < 4 * 2)%Z ->
              exists i, a = Pipeline.Get i))
  /\ ((2 <= 0)%Z -> Pipeline.full drained = false).
Proof.
  apply (PipelineFacts.queue_capacity 2 [Some index_job; None] schedule
           drained).
  by vm_compute.
Defined.

(** [rm_rf] on the workspace of [disk]: the link to [/srv/data] goes, and
    [/srv/data/keep.csv] stays. *)
Example rm_rf_workspace :
  Fs.rm_rf 10 disk ["tmp"; "ws"] = Fs.Done disk_after
  /\ Fs.iterdir disk ["tmp"; "ws"; "17"; "link"]
     = inr [["tmp"; "ws"; "17"; "link"; "keep.csv"]]
  /\ Fs.rm_rf 10 disk ["tmp"; "ws"; "17"; "link"; "keep.csv"]
     = Fs.Done (delete ["srv"; "data"; "keep.csv"] disk)
  /\ Fs.rm_rf 10 disk ["tmp"; "ws"; "list.json"; "x"]
     = Fs.Raised Fs.ENOTDIR disk.
Proof. split_and!; by vm_compute. Qed.

Lemma rm_rf_never_follows_links_witness :
  Fs.rm_rf 1 disk ["tmp"; "ws"; "17"; "link"]
  = Fs.Done (delete ["tmp"; "ws"; "17"; "link"] disk)
  /\ (disk_after ⊆ disk
      /\ forall k, disk_after !! k <> disk !! k ->
            exists d,
              Fs.resolve disk false ["tmp"; "ws"] = inr d /\ d `prefix_of` k)
  /\ Fs.rm_rf 1 disk ["tmp"; "nothing"; "at"; "all"] = Fs.Done disk
  /\ Fs.rm_rf 6 disk ["tmp"; "ws"] <> Fs.OutOfFuel.
Proof.
  split; [|split; [|split]].
  - apply (proj1 (FsFacts.rm_rf_never_follows_links disk
                    ["tmp"; "ws"; "17"; "link"])
             _ ["srv"; "data"] 0); by vm_compute.
  - apply (proj1 (proj2 (FsFacts.rm_rf_never_follows_links disk
                           ["tmp"; "ws"])) 10).
    by vm_compute.
  - apply (proj1 (proj2 (proj2 (FsFacts.rm_rf_never_follows_links disk
                                  ["tmp"; "nothing"; "at"; "all"]))) 0).
    by vm_compute.
  - apply (proj2 (proj2 (proj2 (FsFacts.rm_rf_never_follows_links disk
                                  ["tmp"; "ws"])))).
    vm_compute. lia.
Defined.

End Scenarios.
